(** * fin_jobs_aggregator: a shallow embedding of the crawl-and-extraction engine

    The development follows [src/fin_jobs_aggregator.py].  Python strings are
    modelled as [string] (a sequence of 8-bit characters): whitespace
    classification and case mapping cover the ASCII range, every other
    character is neither whitespace nor cased.  The third-party libraries the
    program calls (BeautifulSoup/soupsieve, [re], [urllib.parse.urljoin],
    [dateparser], [requests], [time]) are not part of the repository; they are
    taken as an interface ([Libs], [World]) over which every general theorem
    is quantified, and a small concrete instance is used to run the functions
    on concrete pages. *)

From Stdlib Require Import ZArith QArith Ascii String List Bool Lia.
From stdpp Require Import base decidable option list gmap strings sorting.

Local Open Scope Z_scope.

(* ===================================================================== *)
(** * Python primitives used by the program                               *)
(* ===================================================================== *)

(** [str.isspace] on one character (ASCII range): TAB, LF, VT, FF, CR, the
    separators 0x1c-0x1f and the space.  The regular-expression class [\s]
    is the same set. *)
Definition isspace (c : ascii) : bool :=
  let n := nat_of_ascii c in
  ((9 <=? n)%nat && (n <=? 13)%nat) || ((28 <=? n)%nat && (n <=? 32)%nat).

(** [str.lower] on one character. *)
Definition lower_char (c : ascii) : ascii :=
  let n := nat_of_ascii c in
  if ((65 <=? n)%nat && (n <=? 90)%nat) then ascii_of_nat (n + 32) else c.

(** [s.lower()] *)
Fixpoint lower (s : string) : string :=
  match s with
  | EmptyString => EmptyString
  | String c r => String (lower_char c) (lower r)
  end.

(** [s.lstrip()] *)
Fixpoint lstrip (s : string) : string :=
  match s with
  | EmptyString => EmptyString
  | String c r => if isspace c then lstrip r else s
  end.

(** [s.rstrip()] *)
Fixpoint rstrip (s : string) : string :=
  match s with
  | EmptyString => EmptyString
  | String c r =>
      match rstrip r with
      | EmptyString => if isspace c then EmptyString else String c EmptyString
      | r' => String c r'
      end
  end.

(** [s.strip()] *)
Definition strip (s : string) : string := rstrip (lstrip s).

(** [re.sub(r"\s+", " ", s)]: every maximal run of whitespace becomes one
    space.  [prev] tells whether the previous character belonged to a run. *)
Fixpoint collapse_ws (prev : bool) (s : string) : string :=
  match s with
  | EmptyString => EmptyString
  | String c r =>
      if isspace c
      then (if prev then collapse_ws true r else String " " (collapse_ws true r))
      else String c (collapse_ws false r)
  end.

Definition re_sub_ws (s : string) : string := collapse_ws false s.

(** Truthiness of an [Optional[str]]: [None] and the empty string are false. *)
Definition truthy (o : option string) : bool :=
  match o with
  | Some s => negb (String.eqb s "")
  | None => false
  end.

(** [a or b] on strings. *)
Definition str_or (a : option string) (b : string) : string :=
  match a with
  | Some s => if String.eqb s "" then b else s
  | None => b
  end.

(** [sub in s]: the substring test. *)
Fixpoint contains (sub s : string) : bool :=
  String.prefix sub s
  || match s with
     | EmptyString => false
     | String _ r => contains sub r
     end.

(** [sep.join(parts)] *)
Fixpoint join (sep : string) (parts : list string) : string :=
  match parts with
  | [] => ""
  | [p] => p
  | p :: rest => p +:+ sep +:+ join sep rest
  end.

(** [any(f(x) for x in l)] is [existsb f l]. *)

(** Tuple comparison [(a1, b1) < (a2, b2)] on pairs of strings: strings
    compare lexicographically by character code. *)
Definition pair_ltb (x y : string * string) : bool :=
  match String.compare (fst x) (fst y) with
  | Lt => true
  | Gt => false
  | Eq => String.ltb (snd x) (snd y)
  end.

(* ===================================================================== *)
(** * Data model                                                          *)
(* ===================================================================== *)

(** [@dataclass class Job] *)
Record Job := mkJob {
  source : string;
  title : string;
  company : string;
  location : string;
  url : string;
  posted : option string;
  posted_dt : option string;
  salary : option string;
  snippet : option string
}.

(** [def key(self): return self.url.strip().lower()] *)
Definition key (j : Job) : string := lower (strip (url j)).

(** [def normalize_space(s): return re.sub(r"\s+", " ", s or "").strip()] *)
Definition normalize_space (s : option string) : string :=
  strip (re_sub_ws (str_or s "")).

(** Exceptions the modelled calls can raise. *)
Inductive exn :=
| SelectorSyntaxError
| re_error
| ValueError
| RequestException.

(** The outcome of a call that may raise. *)
Inductive result (A : Type) :=
| Ok (a : A)
| Raise (e : exn).
Arguments Ok {A} a.
Arguments Raise {A} e.

#[global] Instance result_ret : MRet result := @Ok.
#[global] Instance result_bind : MBind result := fun A B f m =>
  match m with
  | Ok a => f a
  | Raise e => Raise e
  end.
#[global] Instance result_fmap : FMap result := fun A B f m =>
  match m with
  | Ok a => Ok (f a)
  | Raise e => Raise e
  end.


(* ===================================================================== *)
(** * The libraries the program calls                                     *)
(* ===================================================================== *)

(** The pure library calls.  A [Tag] is a bs4 element (the soup itself is
    one); lists of elements are in document order. *)
Class Libs := {
  Tag : Type;
  Pattern : Type;
  (** [BeautifulSoup(html, "html.parser")] *)
  BeautifulSoup : string -> Tag;
  (** [node.select(sel)]; soupsieve raises on a selector it cannot parse *)
  select : Tag -> string -> result (list Tag);
  (** [el.get_text(" ")] *)
  get_text : Tag -> string;
  (** [el.get(attr)] *)
  get : Tag -> string -> option string;
  (** the [a] elements below a node, as [find]/[find_all("a")] walks them *)
  find_all_a : Tag -> list Tag;
  (** [el.string] *)
  tag_string : Tag -> option string;
  (** [re.compile(p)] and, with [true], [re.compile(p, re.I)] *)
  re_compile : string -> bool -> result Pattern;
  (** [pat.search(s)] found a match *)
  search : Pattern -> string -> bool;
  (** [urllib.parse.urljoin(base, url)]; it raises ValueError on some inputs *)
  urljoin : string -> string -> result string;
  (** [dateparser.parse(text, ...)] followed by [.date().isoformat()] *)
  dateparser_parse : string -> option string
}.

(** [requests.get] answers with a status code and a body. *)
Record Response := mkResponse {
  status_code : Z;
  text : string
}.

(** The calls with an effect on the outside world, which is threaded as a
    state [W]. *)
Class World := {
  W : Type;
  (** [requests.get(url, headers=DEFAULT_HEADERS, timeout=timeout)] *)
  requests_get : string -> W -> result Response * W;
  (** [time.sleep(delay)] *)
  time_sleep : Q -> W -> result unit * W
}.

(** The selector keys of a rule ([selectors.get(...)]). *)
Record Selectors := mkSelectors {
  sel_container : option string;
  sel_title : option string;
  sel_company : option string;
  sel_location : option string;
  sel_link : option string;
  sel_posted : option string;
  sel_salary : option string;
  sel_snippet : option string;
  sel_base : option string;
  sel_link_pattern : option string;
  sel_next_selector : option string
}.

(** One entry of [cfg["pages"]]: a dict with its own [default_location], or a
    plain URL. *)
Inductive PageSpec :=
| PageDict (page_url : string) (page_default_location : option string)
| PageStr (page_url : string).

(** A site's rule object.  [selectors] is [cfg.get("selectors", cfg)]. *)
Record SiteCfg := mkSiteCfg {
  selectors : Selectors;
  cfg_pages : option (list PageSpec);
  cfg_urls : option (list string);
  cfg_url : option string;
  cfg_default_location : option string;
  cfg_max_pages : option Z;
  cfg_delay : option Q
}.

(** The selector [a[rel="next"]] (the quote is character 34). *)
Definition dquote : string := String (ascii_of_nat 34) EmptyString.
Definition a_rel_next : string := "a[rel=" +:+ dquote +:+ "next" +:+ dquote +:+ "]".

(* ===================================================================== *)
(** * Helpers and extraction                                              *)
(* ===================================================================== *)

Section Extraction.
Context {L : Libs}.

(** [node.select_one(sel)]: the first match of [select], if any. *)
Definition select_one (node : Tag) (sel : string) : result (option Tag) :=
  l ← select node sel; mret (head l).

(** [def parse_date(text)] *)
Definition parse_date (text : string) : option string :=
  if String.eqb text "" then None else dateparser_parse text.

(** [def sel_text(node, sel)] *)
Definition sel_text (node : Tag) (sel : option string) : result string :=
  if negb (truthy sel) then Ok ""
  else
    el ← select_one node (str_or sel "");
    mret (normalize_space (Some (match el with
                                 | Some e => get_text e
                                 | None => ""
                                 end))).

(** [def sel_attr(node, sel, attr)]: [el.get(attr)] can be [None]. *)
Definition sel_attr (node : Tag) (sel : option string) (attr : string)
  : result (option string) :=
  if negb (truthy sel) then Ok (Some "")
  else
    el ← select_one node (str_or sel "");
    mret (match el with
          | Some e => get e attr
          | None => Some ""
          end).

(** The body of [for card in soup.select(container_sel)]: the Job the card
    contributes, if any. *)
Definition card_job (selectors : Selectors) (source_name : string)
    (default_location : option string) (card : Tag) : result (option Job) :=
  title ← sel_text card (sel_title selectors);
  company ← sel_text card (sel_company selectors);
  loc ← sel_text card (sel_location selectors);
  let location := str_or (Some loc) (str_or default_location "") in
  url0 ← sel_attr card (sel_link selectors) "href";
  url1 ← (if truthy url0
          then u ← urljoin (str_or (sel_base selectors) "") (str_or url0 ""); mret (Some u)
          else mret url0);
  posted_txt ← sel_text card (sel_posted selectors);
  salary ← sel_text card (sel_salary selectors);
  snippet ← sel_text card (sel_snippet selectors);
  if negb (String.eqb title "") && truthy url1
  then mret (Some (mkJob source_name title company location (str_or url1 "")
                     (Some posted_txt)
                     (if negb (String.eqb posted_txt "") then parse_date posted_txt else None)
                     (Some salary) (Some snippet)))
  else mret None.

(** The card loop, appending to [out]. *)
Fixpoint extract_cards (selectors : Selectors) (source_name : string)
    (default_location : option string) (cards : list Tag) (out : list Job)
  : result (list Job) :=
  match cards with
  | [] => Ok out
  | card :: rest =>
      j ← card_job selectors source_name default_location card;
      extract_cards selectors source_name default_location rest
        (match j with
         | Some j => out ++ [j]
         | None => out
         end)
  end.

(** The Job the fallback pass synthesizes for an anchor. *)
Definition fallback_job (source_name : string) (default_location : option string)
    (a : Tag) (url : string) : Job :=
  mkJob source_name
    (str_or (Some (normalize_space (Some (get_text a)))) "Job posting")
    "" (str_or default_location "") url None None None (Some "").

(** The loop [for a in soup.select("a[href]")] of the fallback pass. *)
Fixpoint harvest_links (pat : Pattern) (base : string) (source_name : string)
    (default_location : option string) (anchors : list Tag) (out : list Job)
  : result (list Job) :=
  match anchors with
  | [] => Ok out
  | a :: rest =>
      let href := default "" (get a "href") in
      if String.eqb href "" || negb (search pat href)
      then harvest_links pat base source_name default_location rest out
      else
        u ← urljoin base href;
        if existsb (fun j => String.eqb (url j) u) out
        then harvest_links pat base source_name default_location rest out
        else harvest_links pat base source_name default_location rest
               (out ++ [fallback_job source_name default_location a u])
  end.

(** The structured (card-based) pass of [extract_jobs_from_html]. *)
Definition structured_pass (soup : Tag) (selectors : Selectors)
    (source_name : string) (default_location : option string) : result (list Job) :=
  if truthy (sel_container selectors)
  then
    cards ← select soup (str_or (sel_container selectors) "");
    extract_cards selectors source_name default_location cards []
  else Ok [].

(** The fallback pass (regex link harvesting), continuing from [out]. *)
Definition fallback_pass (soup : Tag) (selectors : Selectors)
    (source_name : string) (default_location : option string) (out : list Job)
  : result (list Job) :=
  if truthy (sel_link_pattern selectors)
  then
    pat ← re_compile (str_or (sel_link_pattern selectors) "") false;
    let base := str_or (sel_base selectors) "" in
    anchors ← select soup "a[href]";
    harvest_links pat base source_name default_location anchors out
  else Ok out.

(** [def extract_jobs_from_html(html, rules, source_name, default_location)] *)
Definition extract_jobs_from_html (html : string) (rules : SiteCfg)
    (source_name : string) (default_location : option string) : result (list Job) :=
  let soup := BeautifulSoup html in
  out ← structured_pass soup (selectors rules) source_name default_location;
  fallback_pass soup (selectors rules) source_name default_location out.

End Extraction.

(* ===================================================================== *)
(** * Pagination                                                          *)
(* ===================================================================== *)

Section Pagination.
Context {L : Libs}.

(** [el and el.get("href")]: the href of a found element, when it has a
    non-empty one. *)
Definition href_of (el : option Tag) : option string :=
  match el with
  | Some e => if truthy (get e "href") then get e "href" else None
  | None => None
  end.

(** [soup.find("a", string=pat)]: the first anchor whose [.string] the
    pattern finds a match in. *)
Definition find_a_string (soup : Tag) (pat : Pattern) : option Tag :=
  List.find (fun a => match tag_string a with
                      | Some s => search pat s
                      | None => false
                      end) (find_all_a soup).

(** The phrases of the text heuristics, in the order the loop tries them. *)
Definition next_phrases : list string :=
  ["Seuraava"; "Next"; "Näytä lisää"; "Load more"].

(** [for txt in (...): el = soup.find("a", string=re.compile(txt, re.I)) ...] *)
Fixpoint text_heuristics (soup : Tag) (base : string) (txts : list string)
  : result (option string) :=
  match txts with
  | [] => Ok None
  | txt :: rest =>
      pat ← re_compile txt true;
      match href_of (find_a_string soup pat) with
      | Some h => u ← urljoin base h; mret (Some u)
      | None => text_heuristics soup base rest
      end
  end.

(** [def find_next_url(soup, selectors)] *)
Definition find_next_url (soup : Tag) (selectors : Selectors) : result (option string) :=
  let base := str_or (sel_base selectors) "" in
  el1 ← (if truthy (sel_next_selector selectors)
         then select_one soup (str_or (sel_next_selector selectors) "")
         else Ok None);
  match href_of el1 with
  | Some h => u ← urljoin base h; mret (Some u)
  | None =>
      el2 ← select_one soup a_rel_next;
      match href_of el2 with
      | Some h => u ← urljoin base h; mret (Some u)
      | None => text_heuristics soup base next_phrases
      end
  end.

End Pagination.

(* ===================================================================== *)
(** * Crawling                                                            *)
(* ===================================================================== *)

(** [def build_pages(cfg)] *)
Definition build_pages (cfg : SiteCfg) : list (string * option string) :=
  match cfg_pages cfg with
  | Some ps =>
      map (fun p => match p with
                    | PageDict u d => (u, d)
                    | PageStr u => (u, cfg_default_location cfg)
                    end) ps
  | None =>
      match cfg_urls cfg with
      | Some us => map (fun u => (u, cfg_default_location cfg)) us
      | None =>
          match cfg_url cfg with
          | Some u => [(u, cfg_default_location cfg)]
          | None => []
          end
      end
  end.

(** [int(cfg.get("max_pages", 4))] and [float(cfg.get("delay", 0.8))] *)
Definition max_pages (cfg : SiteCfg) : Z := default 4 (cfg_max_pages cfg).
Definition delay (cfg : SiteCfg) : Q := default (8 # 10)%Q (cfg_delay cfg).

(** What a crawl does, in order: the log is ghost state that lets the
    theorems count fetches and follow the result list through time. *)
Inductive Event :=
| EvFetch (u : string)
| EvExtract (jobs : list Job)
| EvAppend (j : Job)
| EvSleep (d : Q).

(** How a loop ended: normally, by an exception, or (in the model only)
    because the recursion budget was used up. *)
Inductive outcome :=
| Finished
| Raised (e : exn)
| OutOfFuel.

Section Crawling.
Context {L : Libs} {Wd : World}.

(** [def fetch_url(url, timeout=25)] *)
Definition fetch_url (u : string) (w : W) : option string * W :=
  match requests_get u w with
  | (Ok r, w') => (if status_code r =? 200 then Some (text r) else None, w')
  | (Raise _, w') => (None, w')
  end.

(** The variables of [crawl_site] that outlive one page: [results], [seen],
    the outside world, and the log. *)
Record CrawlState := mkCrawlState {
  results : list Job;
  seen : gset string;
  world : W;
  trace : list Event
}.

Definition log (e : Event) (st : CrawlState) : CrawlState :=
  mkCrawlState (results st) (seen st) (world st) (trace st ++ [e]).

Definition set_world (w : W) (st : CrawlState) : CrawlState :=
  mkCrawlState (results st) (seen st) w (trace st).

(** [seen.add(k); results.append(j)] *)
Definition append_job (j : Job) (st : CrawlState) : CrawlState :=
  mkCrawlState (results st ++ [j]) ({[key j]} ∪ seen st) (world st)
    (trace st ++ [EvAppend j]).

(** [for j in jobs: ...] with its [continue] and [break]. *)
Fixpoint add_jobs (max_items : Z) (jobs : list Job) (st : CrawlState) : CrawlState :=
  match jobs with
  | [] => st
  | j :: rest =>
      if bool_decide (key j ∈ seen st) then add_jobs max_items rest st
      else
        let st' := append_job j st in
        if max_items <=? Z.of_nat (length (results st')) then st'
        else add_jobs max_items rest st'
  end.

(** How one turn of the [while] loop ends: it leaves the loop ([break], or
    an exception), or it hands the loop variables to the next turn. *)
Inductive turn :=
| Leave (o : outcome) (st : CrawlState)
| Again (url : option string) (pages_seen : Z) (visited : gset string)
    (st : CrawlState).

(** The condition of the [while] loop:
    [url and pages_seen < max_pages and len(results) < max_items] *)
Definition loop_cond (cfg : SiteCfg) (max_items : Z) (url : option string)
    (pages_seen : Z) (st : CrawlState) : bool :=
  truthy url && (pages_seen <? max_pages cfg)
  && (Z.of_nat (length (results st)) <? max_items).

(** The body of the [while] loop. *)
Definition walk_body (name : string) (cfg : SiteCfg) (max_items : Z)
    (default_loc : option string) (url : option string) (pages_seen : Z)
    (visited : gset string) (st : CrawlState) : turn :=
  let u := str_or url "" in
  if bool_decide (u ∈ visited) then Leave Finished st
  else
    let visited := {[u]} ∪ visited in
    let '(html, w1) := fetch_url u (world st) in
    let st1 := log (EvFetch u) (set_world w1 st) in
    if negb (truthy html) then Leave Finished st1
    else
      let soup := BeautifulSoup (str_or html "") in
      match extract_jobs_from_html (str_or html "") cfg name default_loc with
      | Raise e => Leave (Raised e) st1
      | Ok jobs =>
          let st2 := add_jobs max_items jobs (log (EvExtract jobs) st1) in
          let pages_seen := pages_seen + 1 in
          if max_items <=? Z.of_nat (length (results st2)) then Leave Finished st2
          else
            match find_next_url soup (selectors cfg) with
            | Raise e => Leave (Raised e) st2
            | Ok next_url =>
                if truthy next_url
                then
                  match time_sleep (delay cfg) (world st2) with
                  | (Raise e, w3) => Leave (Raised e) (set_world w3 st2)
                  | (Ok _, w3) =>
                      Again next_url pages_seen visited
                        (log (EvSleep (delay cfg)) (set_world w3 st2))
                  end
                else Again next_url pages_seen visited st2
            end
      end.

(** The [while] loop of one start URL.  Each turn of the loop costs one
    unit of [fuel]. *)
Fixpoint walk (fuel : nat) (name : string) (cfg : SiteCfg) (max_items : Z)
    (default_loc : option string) (url : option string) (pages_seen : Z)
    (visited : gset string) (st : CrawlState) : outcome * CrawlState :=
  if loop_cond cfg max_items url pages_seen st
  then
    match fuel with
    | O => (OutOfFuel, st)
    | S fuel' =>
        match walk_body name cfg max_items default_loc url pages_seen visited st with
        | Leave o st' => (o, st')
        | Again url' pages_seen' visited' st' =>
            walk fuel' name cfg max_items default_loc url' pages_seen' visited' st'
        end
    end
  else (Finished, st).

(** [for start_url, default_loc in build_pages(cfg): ...] *)
Fixpoint crawl_pages (name : string) (cfg : SiteCfg) (max_items : Z)
    (pages : list (string * option string)) (st : CrawlState)
  : outcome * CrawlState :=
  match pages with
  | [] => (Finished, st)
  | (start_url, default_loc) :: rest =>
      match walk (Z.to_nat (max_pages cfg)) name cfg max_items default_loc
              (Some start_url) 0 ∅ st with
      | (Finished, st') => crawl_pages name cfg max_items rest st'
      | other => other
      end
  end.

(** [def crawl_site(name, cfg, max_items)], started in the world [w]. *)
Definition crawl_site (name : string) (cfg : SiteCfg) (max_items : Z) (w : W)
  : outcome * CrawlState :=
  crawl_pages name cfg max_items (build_pages cfg) (mkCrawlState [] ∅ w []).

End Crawling.

(* ===================================================================== *)
(** * Deduplication, filtering and sorting (from [main])                  *)
(* ===================================================================== *)

(** A Python [dict] with string keys: an association list in insertion
    order.  [d[k] = v] overwrites in place when [k] is there and appends
    otherwise. *)
Fixpoint dict_set {V} (k : string) (v : V) (d : list (string * V)) : list (string * V) :=
  match d with
  | [] => [(k, v)]
  | (k', v') :: r =>
      if String.eqb k' k then (k', v) :: r else (k', v') :: dict_set k v r
  end.

Fixpoint dict_get {V} (k : string) (d : list (string * V)) : option V :=
  match d with
  | [] => None
  | (k', v') :: r => if String.eqb k' k then Some v' else dict_get k r
  end.

(** [dedup = {}; for j in all_jobs: dedup[j.key()] = j] *)
Definition dedup_dict (all_jobs : list Job) : list (string * Job) :=
  fold_left (fun d j => dict_set (key j) j d) all_jobs [].

(** [jobs = list(dedup.values())] *)
Definition dedupe (all_jobs : list Job) : list Job := map snd (dedup_dict all_jobs).

(** The text [filter_jobs] searches:
    [" ".join([j.title.lower(), j.company.lower(), j.location.lower(), (j.snippet or "").lower()])] *)
Definition job_text (j : Job) : string :=
  join " " [lower (title j); lower (company j); lower (location j);
            lower (str_or (snippet j) "")].

(** The inner [def ok(j)] of [filter_jobs]. *)
Definition ok (keywords locations : list string) (j : Job) : bool :=
  let text := job_text j in
  let kw_ok := match keywords with
               | [] => true
               | _ => existsb (fun k => contains (lower k) text) keywords
               end in
  let loc_ok := match locations with
                | [] => true
                | _ => existsb (fun l => contains (lower l) text) locations
                end in
  kw_ok && loc_ok.

(** [def filter_jobs(jobs, keywords, locations)] *)
Definition filter_jobs (jobs : list Job) (keywords locations : list string) : list Job :=
  match keywords, locations with
  | [], [] => jobs
  | _, _ => List.filter (ok keywords locations) jobs
  end.

(** The sort key [(j.posted_dt or "0000-00-00", j.source)]. *)
Definition sort_key (j : Job) : string * string :=
  (str_or (posted_dt j) "0000-00-00", source j).

(** [jobs.sort(key=..., reverse=True)]: a stable sort into descending key
    order.  An element is placed after the elements with a larger key and
    before those with an equal or smaller one, so equal keys keep their
    input order. *)
Fixpoint insert_desc (x : Job) (l : list Job) : list Job :=
  match l with
  | [] => [x]
  | y :: r =>
      if pair_ltb (sort_key x) (sort_key y) then y :: insert_desc x r
      else x :: y :: r
  end.

Definition sort_jobs (jobs : list Job) : list Job := foldr insert_desc [] jobs.

(* ===================================================================== *)
(** * A concrete instance of the libraries                                *)
(* ===================================================================== *)

(** A small model of the libraries, enough to run the program on concrete
    pages.  Documents are trees; the parser is a finite table from HTML text
    to the tree html.parser builds for it; selectors are compound selectors
    of the shape [tag.class[attr="value"]] (each part optional); a regular
    expression is read as a literal, which is what a pattern without
    metacharacters means, and an unbalanced parenthesis is the syntax error
    it reports; [urljoin] covers an empty base or reference, absolute
    references, fragment-only references, and absolute and relative paths
    without dot segments. *)
Module Toy.

#[local] Set Warnings "-register-all".

Inductive tnode :=
| TElem (name : string) (attrs : list (string * string)) (children : list tnode)
| TText (s : string).

Definition is_elem (n : tnode) : bool :=
  match n with
  | TElem _ _ _ => true
  | TText _ => false
  end.

(** The elements strictly below a node, in document order. *)
Fixpoint descendants (n : tnode) : list tnode :=
  match n with
  | TText _ => []
  | TElem _ _ cs =>
      (fix go (l : list tnode) : list tnode :=
         match l with
         | [] => []
         | c :: r => (if is_elem c then [c] else []) ++ descendants c ++ go r
         end) cs
  end.

(** The text strings below a node, in document order. *)
Fixpoint strings (n : tnode) : list string :=
  match n with
  | TText s => [s]
  | TElem _ _ cs =>
      (fix go (l : list tnode) : list string :=
         match l with
         | [] => []
         | c :: r => strings c ++ go r
         end) cs
  end.

Definition t_get_text (n : tnode) : string := join " " (strings n).

Definition t_get (n : tnode) (attr : string) : option string :=
  match n with
  | TElem _ attrs _ => dict_get attr attrs
  | TText _ => None
  end.

Definition t_name (n : tnode) : string :=
  match n with
  | TElem nm _ _ => nm
  | TText _ => ""
  end.

(** [el.string]: the single string below an element, following only
    children. *)
Fixpoint t_string (n : tnode) : option string :=
  match n with
  | TText s => Some s
  | TElem _ _ [c] => t_string c
  | TElem _ _ _ => None
  end.

Definition t_find_all_a (n : tnode) : list tnode :=
  List.filter (fun d => String.eqb (t_name d) "a") (descendants n).

(** ** Selectors *)

Definition is_ident_char (c : ascii) : bool :=
  let n := nat_of_ascii c in
  ((48 <=? n)%nat && (n <=? 57)%nat) || ((65 <=? n)%nat && (n <=? 90)%nat)
  || ((97 <=? n)%nat && (n <=? 122)%nat) || (n =? 45)%nat || (n =? 95)%nat.

(** The longest prefix whose characters satisfy [p], and the rest. *)
Fixpoint span (p : ascii -> bool) (s : string) : string * string :=
  match s with
  | EmptyString => (EmptyString, EmptyString)
  | String c r =>
      if p c then let '(a, b) := span p r in (String c a, b)
      else (EmptyString, s)
  end.

Record compound := mkCompound {
  c_tag : string;
  c_class : string;
  c_attr : option (string * option string)
}.

Definition is_dquote (c : ascii) : bool := (nat_of_ascii c =? 34)%nat.

(** The attribute part [[attr]] or [[attr="value"]], and what follows. *)
Definition parse_attr (s : string) : option (option (string * option string) * string) :=
  match s with
  | String "[" r =>
      let '(an, r1) := span is_ident_char r in
      if String.eqb an "" then None
      else
        match r1 with
        | String "]" r2 => Some (Some (an, None), r2)
        | String "=" (String q r2) =>
            if is_dquote q then
              let '(v, r3) := span (fun c => negb (is_dquote c)) r2 in
              match r3 with
              | String _ (String "]" r4) => Some (Some (an, Some v), r4)
              | _ => None
              end
            else None
        | _ => None
        end
  | _ => Some (None, s)
  end.

Definition parse_selector (s : string) : option compound :=
  let '(tg, r1) := span is_ident_char s in
  let cls_rest :=
    match r1 with
    | String "." r =>
        let '(cl, r2) := span is_ident_char r in
        if String.eqb cl "" then None else Some (cl, r2)
    | _ => Some ("", r1)
    end in
  match cls_rest with
  | None => None
  | Some (cl, r2) =>
      match parse_attr r2 with
      | Some (at_, "") =>
          if String.eqb tg "" && String.eqb cl "" && negb (bool_decide (is_Some at_))
          then None
          else Some (mkCompound tg cl at_)
      | _ => None
      end
  end.

(** The space-separated words of a [class] attribute. *)
Fixpoint words (cur : string) (s : string) : list string :=
  match s with
  | EmptyString => if String.eqb cur "" then [] else [cur]
  | String c r =>
      if isspace c
      then (if String.eqb cur "" then words "" r else cur :: words "" r)
      else words (cur +:+ String c EmptyString) r
  end.

Definition matches (c : compound) (n : tnode) : bool :=
  is_elem n
  && (String.eqb (c_tag c) "" || String.eqb (c_tag c) (t_name n))
  && (String.eqb (c_class c) ""
      || existsb (String.eqb (c_class c)) (words "" (default "" (t_get n "class"))))
  && match c_attr c with
     | None => true
     | Some (an, None) => bool_decide (is_Some (t_get n an))
     | Some (an, Some v) =>
         match t_get n an with
         | Some v' => String.eqb v v'
         | None => false
         end
     end.

Definition t_select (n : tnode) (sel : string) : result (list tnode) :=
  match parse_selector sel with
  | Some c => Ok (List.filter (matches c) (descendants n))
  | None => Raise SelectorSyntaxError
  end.

(** ** Regular expressions *)

(** A pattern read as a literal, with or without [re.I]. *)
Record tpattern := mkPattern {
  p_text : string;
  p_ignorecase : bool
}.

(** Open parentheses minus closed ones never go negative and end at zero. *)
Fixpoint balanced (depth : nat) (s : string) : bool :=
  match s with
  | EmptyString => (depth =? 0)%nat
  | String "(" r => balanced (S depth) r
  | String ")" r =>
      match depth with
      | O => false
      | S d => balanced d r
      end
  | String _ r => balanced depth r
  end.

Definition t_re_compile (p : string) (ignorecase : bool) : result tpattern :=
  if balanced 0 p then Ok (mkPattern p ignorecase) else Raise re_error.

Definition t_search (pat : tpattern) (s : string) : bool :=
  if p_ignorecase pat then contains (lower (p_text pat)) (lower s)
  else contains (p_text pat) s.

(** ** URL resolution *)

(** The text before the first occurrence of the character [c]. *)
Fixpoint before (c : ascii) (s : string) : string :=
  match s with
  | EmptyString => EmptyString
  | String d r => if Ascii.eqb c d then EmptyString else String d (before c r)
  end.

(** The text after the first occurrence of the substring [sub], if any. *)
Fixpoint after (sub s : string) : option string :=
  if String.prefix sub s then Some (substring (String.length sub) (String.length s) s)
  else match s with
       | EmptyString => None
       | String _ r => after sub r
       end.

(** [scheme://host] of an absolute URL, the empty string otherwise. *)
Definition origin (u : string) : string :=
  match after "://" u with
  | Some r => before ":" u +:+ "://" +:+ before "/" r
  | None => ""
  end.

(** The text up to and including the last slash. *)
Fixpoint dirname (s : string) : string :=
  match s with
  | EmptyString => EmptyString
  | String c r =>
      if contains "/" s then String c (dirname r) else EmptyString
  end.

Definition t_urljoin (base u : string) : result string :=
  if String.eqb base "" then Ok u
  else if String.eqb u "" then Ok base
  else if String.prefix "//[" u && negb (contains "]" u) then Raise ValueError
  else if contains "://" u then Ok u
  else if String.prefix "#" u
       then Ok (before "#" base +:+ (if String.eqb u "#" then "" else u))
  else
    let path := substring (String.length (origin base)) (String.length base) base in
    if String.prefix "/" u then Ok (origin base +:+ u)
    else Ok (origin base +:+ (if contains "/" path then dirname path else "/") +:+ u).

(** ** Dates *)

Definition is_digit (c : ascii) : bool :=
  let n := nat_of_ascii c in (48 <=? n)%nat && (n <=? 57)%nat.

(** The one date format this parser reads: [YYYY-MM-DD]. *)
Definition is_iso_date (s : string) : bool :=
  match s with
  | String y1 (String y2 (String y3 (String y4 (String "-"
      (String m1 (String m2 (String "-" (String d1 (String d2 EmptyString))))))))) =>
      forallb is_digit [y1; y2; y3; y4; m1; m2; d1; d2]
  | _ => false
  end.

(** ** The instance *)

(** [pages] lists the HTML texts with the tree the parser builds for each;
    any other text is a document holding that text alone. *)
Definition t_parse (pages : list (string * tnode)) (html : string) : tnode :=
  match dict_get html pages with
  | Some d => d
  | None => TElem "[document]" [] [TText html]
  end.

Definition tree_libs (pages : list (string * tnode)) : Libs := {|
  Tag := tnode;
  Pattern := tpattern;
  BeautifulSoup := t_parse pages;
  select := t_select;
  get_text := t_get_text;
  get := t_get;
  find_all_a := t_find_all_a;
  tag_string := t_string;
  re_compile := t_re_compile;
  search := t_search;
  urljoin := t_urljoin;
  dateparser_parse := fun s => if is_iso_date s then Some s else None
|}.

(** The web is a table from URL to response; a URL outside it does not
    answer.  The state of the world is the list of requests made. *)
Definition table_world (web : list (string * Response)) : World := {|
  W := list string;
  requests_get := fun u w =>
    (match dict_get u web with
     | Some r => Ok r
     | None => Raise RequestException
     end, w ++ [u]);
  time_sleep := fun d w => (if Qle_bool 0 d then Ok tt else Raise ValueError, w)
|}.

End Toy.

(* ===================================================================== *)
(** * More of the program: helpers, escaping, and the steps of [main]     *)
(* ===================================================================== *)

From Stdlib Require OrderedTypeEx.

(** [s.split(c)] for a one-character separator: the pieces between the
    separators, in order; a text without separator is its own single
    piece. *)
Fixpoint split_on (c : ascii) (s : string) : list string :=
  match s with
  | EmptyString => [EmptyString]
  | String d r =>
      if Ascii.eqb d c then EmptyString :: split_on c r
      else
        match split_on c r with
        | p :: ps => String d p :: ps
        | [] => [String d EmptyString]
        end
  end.

(** [def csv_list(s): return [normalize_space(x) for x in s.split(",") if normalize_space(x)]] *)
Definition csv_list (s : string) : list string :=
  map (fun x => normalize_space (Some x))
    (List.filter (fun x => negb (String.eqb (normalize_space (Some x)) ""))
       (split_on "," s)).

(** [s.replace(old, new)] for a one-character [old]. *)
Fixpoint replace_char (old : ascii) (new : string) (s : string) : string :=
  match s with
  | EmptyString => EmptyString
  | String c r =>
      if Ascii.eqb c old then new +:+ replace_char old new r
      else String c (replace_char old new r)
  end.

(** The double quote, as a character. *)
Definition dquote_char : ascii := ascii_of_nat 34.

(** [def esc_html(s)]: the five replacements, in the order of the source. *)
Definition esc_html (s : option string) : string :=
  replace_char "'" "&#39;"
    (replace_char dquote_char "&quot;"
       (replace_char ">" "&gt;"
          (replace_char "<" "&lt;"
             (replace_char "&" "&amp;" (str_or s ""))))).

(** The row [build_html] writes for a posting: the format string of the
    source, with its eight named fields. *)
Definition row_template (src loc dt u t c p sn : string) : string :=
  "<article class='card' data-source='" +:+ src +:+ "' data-location='" +:+ loc
    +:+ "' data-text='" +:+ dt +:+ "'>"
  +:+ "<div class='card-head'>"
  +:+ "<a class='title' href='" +:+ u +:+ "' target='_blank' rel='noopener'>"
    +:+ t +:+ "</a>"
  +:+ "<span class='source'>" +:+ src +:+ "</span>"
  +:+ "</div>"
  +:+ "<div class='meta'><span class='company'>" +:+ c
    +:+ "</span><span class='sep'>•</span>"
  +:+ "<span class='location'>" +:+ loc
    +:+ "</span><span class='sep'>•</span><span class='posted'>" +:+ p
    +:+ "</span></div>"
  +:+ "<p class='snippet'>" +:+ sn +:+ "</p>"
  +:+ "<div class='actions'><button onclick=" +:+ dquote
    +:+ "navigator.clipboard.writeText('" +:+ u +:+ "')" +:+ dquote
    +:+ ">Copy link</button>"
  +:+ "<a class='apply' href='" +:+ u
    +:+ "' target='_blank' rel='noopener'>Open & Apply ↗</a></div>"
  +:+ "</article>".

(** The texts of a row, as the loop of [build_html] computes them. *)
Definition row_title (j : Job) : string := esc_html (Some (title j)).
Definition row_company (j : Job) : string := esc_html (Some (company j)).
Definition row_location (j : Job) : string := esc_html (Some (location j)).
Definition row_snippet (j : Job) : string :=
  esc_html (Some (str_or (snippet j) "")).
Definition row_posted (j : Job) : string :=
  esc_html (Some (str_or (posted_dt j) (str_or (posted j) ""))).
Definition row_source (j : Job) : string := esc_html (Some (source j)).

(** [data_text = esc_html(f"{title} {company} {location} {snippet} {source}")],
    over the texts escaped already. *)
Definition row_data_text (j : Job) : string :=
  esc_html (Some (row_title j +:+ " " +:+ row_company j +:+ " " +:+ row_location j
                  +:+ " " +:+ row_snippet j +:+ " " +:+ row_source j)).

Definition html_row (j : Job) : string :=
  row_template (row_source j) (row_location j) (row_data_text j) (url j)
    (row_title j) (row_company j) (row_posted j) (row_snippet j).

(** [DEFAULT_LOCATIONS] and [DEFAULT_KEYWORDS] *)
Definition DEFAULT_LOCATIONS : list string := ["Helsinki"; "Espoo"; "Vantaa"].

Definition DEFAULT_KEYWORDS : list string :=
  ["warehouse"; "warehousing"; "logistics"; "logistic"; "picker"; "packer";
   "forklift"; "varasto"; "logistiikka"; "material handler"; "order picker";
   "post sorter";
   "cleaner"; "cleaning"; "janitor"; "housekeeping"; "siivous"; "siivooja";
   "toimitilahuoltaja";
   "kitchen"; "dishwasher"; "cook"; "chef"; "ravintola"; "keittiö"; "keittio";
   "keittiöapulainen"; "astiahuoltaja"; "tiskaaja"; "line cook";
   "fast food"; "pikaruoka"; "McDonalds"; "Hesburger"; "Burger King"; "Subway";
   "Taco Bell"; "Kotipizza"].

(** The command-line options [main] reads for the crawl and the filters. *)
Record Args := mkArgs {
  args_keywords : string;
  args_locations : string;
  args_no_filters : bool;
  args_max_per_site : Z;
  args_days : Z
}.

(** "Decide filters" in [main]: the keyword and the location list. *)
Definition decide_filters (args : Args) : list string * list string :=
  if args_no_filters args then ([], [])
  else
    (if negb (String.eqb (args_keywords args) "")
     then csv_list (args_keywords args) else DEFAULT_KEYWORDS,
     if negb (String.eqb (args_locations args) "")
     then csv_list (args_locations args) else DEFAULT_LOCATIONS).

(** "Date filter" in [main].  [cutoff] is
    [(dt.date.today() - dt.timedelta(days=args.days)).isoformat()]; dates
    are compared as strings. *)
Definition date_filter (days : Z) (cutoff : string) (jobs : list Job) : list Job :=
  if negb (days =? 0) && existsb (fun j => truthy (posted_dt j)) jobs
  then List.filter (fun j => negb (truthy (posted_dt j))
                             || String.leb cutoff (str_or (posted_dt j) "")) jobs
  else jobs.

(** What [main] does with the crawled postings before it saves them:
    deduplicate, date filter, keyword/location filter, sort. *)
Definition pipeline (days : Z) (cutoff : string) (keywords locations : list string)
    (all_jobs : list Job) : list Job :=
  sort_jobs (filter_jobs (date_filter days cutoff (dedupe all_jobs))
               keywords locations).

Section CrawlAll.
Context {L : Libs} {Wd : World}.

(** "Crawl all" in [main]: each site in turn; a site whose crawl raises is
    reported and skipped, the postings of the others are appended to
    [all_jobs]. *)
Fixpoint crawl_all (sites : list (string * SiteCfg)) (max_per_site : Z)
    (all_jobs : list Job) (w : W) : list Job * W :=
  match sites with
  | [] => (all_jobs, w)
  | (name, cfg) :: rest =>
      match crawl_site name cfg max_per_site w with
      | (Finished, st) =>
          crawl_all rest max_per_site (all_jobs ++ results st) (world st)
      | (_, st) => crawl_all rest max_per_site all_jobs (world st)
      end
  end.

(** [main] from the parsed options and the loaded sites to the list it
    saves.  [cutoff] stands for
    [(dt.date.today() - dt.timedelta(days=args.days)).isoformat()]. *)
Definition main_jobs (args : Args) (sites : list (string * SiteCfg))
    (cutoff : string) (w : W) : list Job :=
  let '(keywords, locations) := decide_filters args in
  let '(all_jobs, _) := crawl_all sites (args_max_per_site args) [] w in
  pipeline (args_days args) cutoff keywords locations all_jobs.

End CrawlAll.

(* ===================================================================== *)
(** * Vocabulary of the statements                                        *)
(* ===================================================================== *)

(** [sub] occurs in [s]. *)
Definition substring_of (sub s : string) : Prop :=
  exists pre post, s = pre +:+ sub +:+ post.




(** A text is clean when its only whitespace is single spaces between
    other characters; [prev] tells whether a whitespace character came just
    before. *)
Fixpoint clean (prev : bool) (s : string) : bool :=
  match s with
  | EmptyString => true
  | String c r =>
      if isspace c then Ascii.eqb c " " && negb prev && clean true r
      else clean false r
  end.

(** What [lstrip] returns does not start with whitespace. *)
Definition starts_clean (s : string) : Prop :=
  match s with
  | EmptyString => True
  | String c _ => isspace c = false
  end.

(** No posting of the output is followed by one with a larger key. *)
Definition not_before (x y : Job) : Prop :=
  pair_ltb (sort_key x) (sort_key y) = false.

(** The last posting of a list that has the identity key [k]. *)
Definition last_with_key (k : string) (l : list Job) : option Job :=
  last (List.filter (fun j => String.eqb (key j) k) l).

(** First-wins deduplication by identity key: a posting is kept when its
    key is not in [earlier] and no posting before it in the list has it. *)
Fixpoint first_wins_from (earlier : gset string) (l : list Job) : list Job :=
  match l with
  | [] => []
  | j :: r =>
      if bool_decide (key j ∈ earlier) then first_wins_from earlier r
      else j :: first_wins_from ({[key j]} ∪ earlier) r
  end.

Definition first_wins (l : list Job) : list Job := first_wins_from ∅ l.

(** [j] is the first posting of [l] with its identity key. *)
Definition first_with_key (j : Job) (l : list Job) : Prop :=
  exists l1 l2, l = l1 ++ j :: l2 /\ key j ∉ map key l1.

(** Reading the log of a crawl. *)
Definition fetched (tr : list Event) : list string :=
  omap (fun e => match e with EvFetch u => Some u | _ => None end) tr.

Definition appended (tr : list Event) : list Job :=
  omap (fun e => match e with EvAppend j => Some j | _ => None end) tr.

Definition extracted (tr : list Event) : list Job :=
  concat (omap (fun e => match e with EvExtract js => Some js | _ => None end) tr).

Definition extractions (tr : list Event) : nat :=
  length (omap (fun e => match e with EvExtract js => Some js | _ => None end) tr).

(** Two postings of the scenario of the Sorter. *)
Definition job_A : Job :=
  mkJob "x" "A" "" "" "https://x.example/a" None (Some "2024-05-01") None None.
Definition job_B : Job :=
  mkJob "a" "B" "" "" "https://a.example/b" None (Some "2024-05-01") None None.

(* ===================================================================== *)
(** * Concrete pages and rules                                            *)
(* ===================================================================== *)

Module Pages.
Import Toy.

Definition no_selectors : Selectors :=
  mkSelectors None None None None None None None None None None None.

Definition rules_of (s : Selectors) : SiteCfg :=
  mkSiteCfg s None None None None None None.

(** *** A listing page: one card, then three plain links *)

Definition html_listing : string :=
  "<div class='job'><h2>Cook</h2><a href='/Job/1'>apply</a></div>"
  +:+ "<a href='/job/1'>Cook (copy)</a>"
  +:+ "<a href='/job/2'>Cleaner</a><a href='/job/2'>Cleaner</a>".

Definition card_cook : tnode :=
  TElem "div" [("class", "job")]
    [TElem "h2" [] [TText "Cook"]; TElem "a" [("href", "/Job/1")] [TText "apply"]].
Definition a_cook_copy : tnode := TElem "a" [("href", "/job/1")] [TText "Cook (copy)"].
Definition a_cleaner : tnode := TElem "a" [("href", "/job/2")] [TText "Cleaner"].

Definition doc_listing : tnode :=
  TElem "[document]" [] [card_cook; a_cook_copy; a_cleaner; a_cleaner].

(** Cards are [.job], their title is the [h2], their link the [a]; links
    whose href contains [/job/] are harvested; no base. *)
Definition sel_listing : Selectors :=
  mkSelectors (Some ".job") (Some "h2") None None (Some "a") None None None
    None (Some "/job/") None.

Definition job_cook : Job :=
  mkJob "site" "Cook" "" "" "/Job/1" (Some "") None (Some "") (Some "").
Definition job_cook_copy : Job :=
  mkJob "site" "Cook (copy)" "" "" "/job/1" None None None (Some "").
Definition job_cleaner : Job :=
  mkJob "site" "Cleaner" "" "" "/job/2" None None None (Some "").

(** *** A card whose link is a single space *)

Definition html_blank_link : string :=
  "<div class='job'><h2>Cook</h2><a href=' '>apply</a></div>".

Definition doc_blank_link : tnode :=
  TElem "[document]" []
    [TElem "div" [("class", "job")]
       [TElem "h2" [] [TText "Cook"]; TElem "a" [("href", " ")] [TText "apply"]]].

Definition sel_cards_only : Selectors :=
  mkSelectors (Some ".job") (Some "h2") None None (Some "a") None None None
    None None None.

(** *** A page with one fragment link, under a rule whose base is [#] *)

Definition html_fragment : string := "<a href='#'>top</a>".

Definition doc_fragment : tnode :=
  TElem "[document]" [] [TElem "a" [("href", "#")] [TText "top"]].

Definition sel_fragment : Selectors :=
  mkSelectors None None None None None None None None (Some "#") (Some "#") None.

(** *** Rules the libraries reject *)


Definition sel_bad_container : Selectors :=
  mkSelectors (Some "div[") None None None None None None None None None None.

(** *** Pagination links *)

Definition a_next : tnode := TElem "a" [("href", "/n")] [TText "Next"].
Definition a_seuraava : tnode := TElem "a" [("href", "/s")] [TText "Seuraava"].
Definition a_rel : tnode := TElem "a" [("rel", "next"); ("href", "/r")] [TText "2"].
Definition a_custom : tnode := TElem "a" [("class", "more"); ("href", "/m")] [TText "older"].

(** "Next" comes before "Seuraava" in the document. *)
Definition doc_two_phrases : tnode := TElem "[document]" [] [a_next; a_seuraava].

(** All three tiers have a candidate. *)
Definition doc_all_tiers : tnode :=
  TElem "[document]" [] [a_next; a_rel; a_custom].

Definition sel_more : Selectors :=
  mkSelectors None None None None None None None None (Some "https://jobs.example/list")
    None (Some "a.more").

Definition sel_based : Selectors :=
  mkSelectors None None None None None None None None (Some "https://jobs.example/list")
    None None.

(** *** A two-page site *)

Definition card (t href : string) : tnode :=
  TElem "div" [("class", "job")]
    [TElem "h2" [] [TText t]; TElem "a" [("href", href)] [TText "apply"]].

Definition html_p1 : string :=
  "<div class='job'><h2>Cook</h2><a href='/job/1'>apply</a></div>"
  +:+ "<div class='job'><h2>Cleaner</h2><a href='/job/2'>apply</a></div>"
  +:+ "<a rel='next' href='/p2'>2</a>".
Definition doc_p1 : tnode :=
  TElem "[document]" []
    [card "Cook" "/job/1"; card "Cleaner" "/job/2";
     TElem "a" [("rel", "next"); ("href", "/p2")] [TText "2"]].

Definition html_p2 : string :=
  "<div class='job'><h2>Picker</h2><a href='/job/3'>apply</a></div>"
  +:+ "<div class='job'><h2>Cook again</h2><a href='/JOB/1'>apply</a></div>"
  +:+ "<a rel='next' href='/p1'>1</a>".
Definition doc_p2 : tnode :=
  TElem "[document]" []
    [card "Picker" "/job/3"; card "Cook again" "/JOB/1";
     TElem "a" [("rel", "next"); ("href", "/p1")] [TText "1"]].

Definition sel_site : Selectors :=
  mkSelectors (Some ".job") (Some "h2") None None (Some "a") None None None
    (Some "https://jobs.example/") None None.

Definition cfg_site : SiteCfg :=
  mkSiteCfg sel_site None None (Some "https://jobs.example/p1") None None None.

(** The parser table and the web of the examples. *)
Definition parsed : list (string * tnode) :=
  [(html_listing, doc_listing); (html_blank_link, doc_blank_link);
   (html_fragment, doc_fragment); (html_p1, doc_p1); (html_p2, doc_p2)].

Definition web : list (string * Response) :=
  [("https://jobs.example/p1", mkResponse 200 html_p1);
   ("https://jobs.example/p2", mkResponse 200 html_p2);
   ("https://jobs.example/gone", mkResponse 404 "not found")].

#[export] Instance example_libs : Libs := tree_libs parsed.
#[export] Instance example_world : World := table_world web.

End Pages.

(* ===================================================================== *)
(** * Vocabulary of the statements about extraction and pagination        *)
(* ===================================================================== *)

Section LibVocabulary.
Context {L : Libs}.



(** A posting a pass may put in its output: its title is normalized and not
    empty. *)
Definition titled (j : Job) : Prop :=
  title j <> "" /\ normalize_space (Some (title j)) = title j.

(** What the fallback pass synthesizes from the anchor [a]. *)
Definition harvested (pat : Pattern) (base source_name : string)
    (default_location : option string) (anchors : list Tag) (j : Job) : Prop :=
  exists a href,
    a ∈ anchors /\ get a "href" = Some href /\ href <> ""
    /\ search pat href = true /\ urljoin base href = Ok (url j)
    /\ j = fallback_job source_name default_location a (url j).

(** A posting whose url is the resolution of a non-empty href. *)
Definition from_href (base : string) (j : Job) : Prop :=
  exists a href,
    get a "href" = Some href /\ href <> "" /\ urljoin base href = Ok (url j).

(** An anchor's [.string] matches a phrase, ignoring case. *)
Definition string_matches (pat : Pattern) (a : Tag) : bool :=
  match tag_string a with
  | Some s => search pat s
  | None => false
  end.

(** The href the text heuristic finds for one phrase: that of the first
    anchor whose string matches, when that anchor has one. *)
Definition phrase_href (soup : Tag) (txt : string) : result (option string) :=
  pat ← re_compile txt true; mret (href_of (find_a_string soup pat)).

(** The first tier has no answer: no [next_selector], or its first match is
    missing or has no href. *)
Definition tier1_silent (soup : Tag) (s : Selectors) : Prop :=
  truthy (sel_next_selector s) = false
  \/ exists el, select_one soup (str_or (sel_next_selector s) "") = Ok el
                /\ href_of el = None.

(** The second tier has no answer. *)
Definition tier2_silent (soup : Tag) : Prop :=
  exists el, select_one soup a_rel_next = Ok el /\ href_of el = None.

End LibVocabulary.

(* ===================================================================== *)
(** * Vocabulary of the statements about crawling                         *)
(* ===================================================================== *)

Section CrawlVocabulary.
Context {Wd : World}.

(** What holds of the state of a site's crawl between any two steps: the
    result list is what the log says was appended, [seen] holds the keys of
    the results, and the results are the first [max_items] postings of the
    first-wins deduplication of everything extracted so far. *)
Definition crawl_inv (max_items : Z) (st : CrawlState) : Prop :=
  results st = appended (trace st)
  /\ seen st = list_to_set (map key (results st))
  /\ results st = take (Z.to_nat max_items) (first_wins (extracted (trace st))).

(** The request for [u] fails: a transport error, or a status other than
    200. *)
Definition fetch_fails (u : string) (w w' : W) : Prop :=
  (exists e, requests_get u w = (Raise e, w'))
  \/ (exists r, requests_get u w = (Ok r, w') /\ status_code r <> 200).

(** What one turn, or a whole walk, may do to the state: the log grows by
    [new], which holds at most [n] fetches and no more extractions than
    fetches, and the invariant is kept. *)
Definition advances (max_items : Z) (n : nat) (st st' : CrawlState) : Prop :=
  exists new,
    trace st' = trace st ++ new
    /\ (length (fetched new) <= n)%nat
    /\ (extractions new <= length (fetched new))%nat
    /\ (crawl_inv max_items st -> crawl_inv max_items st').

End CrawlVocabulary.

(* ===================================================================== *)
(** * Vocabulary of the statements about the helpers and [main]           *)
(* ===================================================================== *)

(** Every character of [s] satisfies [p]. *)
Fixpoint all_chars (p : ascii -> bool) (s : string) : bool :=
  match s with
  | EmptyString => true
  | String c r => p c && all_chars p r
  end.


(** A term as [csv_list] returns them: not empty, whitespace-normalized, and
    without a comma. *)
Definition csv_term (t : string) : Prop :=
  t <> "" /\ normalize_space (Some t) = t
  /\ all_chars (fun c => negb (Ascii.eqb c ",")) t = true.

(** The characters [esc_html] replaces, and what stands for each. *)
Definition is_markup (c : ascii) : bool :=
  Ascii.eqb c "&" || Ascii.eqb c "<" || Ascii.eqb c ">"
  || Ascii.eqb c dquote_char || Ascii.eqb c "'".

Definition esc_char (c : ascii) : string :=
  if Ascii.eqb c "&" then "&amp;"
  else if Ascii.eqb c "<" then "&lt;"
  else if Ascii.eqb c ">" then "&gt;"
  else if Ascii.eqb c dquote_char then "&quot;"
  else if Ascii.eqb c "'" then "&#39;"
  else String c EmptyString.

(** Escaping character by character. *)
Fixpoint esc_each (s : string) : string :=
  match s with
  | EmptyString => EmptyString
  | String c r => esc_char c +:+ esc_each r
  end.

(** A posting the date filter keeps: it has no date, or its date is not
    before the cutoff (as strings). *)
Definition recent (cutoff : string) (j : Job) : bool :=
  negb (truthy (posted_dt j)) || String.leb cutoff (str_or (posted_dt j) "").

(** The posting [a] stands before the posting [b] somewhere in [l]. *)
Definition stands_before (a b : Job) (l : list Job) : Prop :=
  exists l1 l2 l3, l = l1 ++ a :: l2 ++ b :: l3.

(** Counting the sleeps of a log. *)
Definition sleeps (tr : list Event) : nat :=
  length (omap (fun e => match e with EvSleep d => Some d | _ => None end) tr).

(** The characters that open or close a tag or an attribute value. *)
Definition is_quote_or_angle (c : ascii) : bool :=
  Ascii.eqb c "<" || Ascii.eqb c ">" || Ascii.eqb c dquote_char || Ascii.eqb c "'".

(** A posting without a date. *)
Definition job_undated : Job :=
  mkJob "s" "C" "" "" "https://s.example/c" None None None None.

(** What a crawl of the site [name] with the pause [d] writes to its log:
    every extracted posting carries the site's name and a title, there are
    no more pauses than extractions, and every pause lasts [d]. *)
Definition orderly (name : string) (d : Q) (new : list Event) : Prop :=
  Forall (fun j => source j = name /\ titled j) (extracted new)
  /\ (sleeps new <= extractions new)%nat
  /\ Forall (fun e => match e with EvSleep d' => d' = d | _ => True end) new.

(* ===================================================================== *)
(** * More concrete sites                                                 *)
(* ===================================================================== *)

Module MorePages.
Import Toy Pages.

(** A site whose [pages] list is empty although it has a [url]. *)
Definition cfg_no_pages : SiteCfg :=
  mkSiteCfg sel_site (Some []) None (Some "https://jobs.example/p1") None None None.

(** A web with a page that answers 200 with an empty body. *)
Definition web_empty : list (string * Response) :=
  [("https://jobs.example/empty", mkResponse 200 "")].

Definition empty_world : World := table_world web_empty.

Definition cfg_empty : SiteCfg :=
  mkSiteCfg sel_site None None (Some "https://jobs.example/empty") None None None.

(** A second site, whose container selector the selector engine rejects. *)
Definition cfg_broken : SiteCfg :=
  mkSiteCfg sel_bad_container None None (Some "https://jobs.example/p1") None None None.

Definition sites_two : list (string * SiteCfg) :=
  [("broken", cfg_broken); ("site", cfg_site)].

(** A page whose cards carry a posting date; the first is an ISO date, the
    second is not a date. *)
Definition html_dated : string :=
  "<div class='job'><h2>Cook</h2><a href='/job/1'>apply</a>"
  +:+ "<span class='d'> 2024-05-01 </span></div>"
  +:+ "<div class='job'><h2>Picker</h2><a href='/job/2'>apply</a>"
  +:+ "<span class='d'>soon</span></div>".

Definition dated_card (t href d : string) : tnode :=
  TElem "div" [("class", "job")]
    [TElem "h2" [] [TText t]; TElem "a" [("href", href)] [TText "apply"];
     TElem "span" [("class", "d")] [TText d]].

Definition doc_dated : tnode :=
  TElem "[document]" []
    [dated_card "Cook" "/job/1" " 2024-05-01 "; dated_card "Picker" "/job/2" "soon"].

Definition sel_dated : Selectors :=
  mkSelectors (Some ".job") (Some "h2") None None (Some "a") (Some ".d") None None
    None None None.

Definition dated_libs : Libs := tree_libs [(html_dated, doc_dated)].

Definition job_cook_dated : Job :=
  mkJob "site" "Cook" "" "" "/job/1" (Some "2024-05-01") (Some "2024-05-01")
    (Some "") (Some "").
Definition job_picker_soon : Job :=
  mkJob "site" "Picker" "" "" "/job/2" (Some "soon") None (Some "") (Some "").

(** Options as [main] has them by default, with filtering switched off. *)
Definition args_plain : Args := mkArgs "" "" true 120 120.

End MorePages.

(* ===================================================================== *)
(** * Facts about the string primitives                                   *)
(* ===================================================================== *)

#[local] Arguments String.append !s1 s2 : simpl nomatch.
#[local] Set Warnings "-clear-no-such-hyp".

Lemma isspace_lower_char (c : ascii) : isspace (lower_char c) = isspace c.
Proof. destruct c as [[] [] [] [] [] [] [] []]; reflexivity. Qed.


Lemma lower_empty_iff (s : string) : lower s = "" <-> s = "".
Proof. destruct s; simpl; split; congruence. Qed.

Lemma lstrip_lower (s : string) : lstrip (lower s) = lower (lstrip s).
Proof.
  induction s as [|c s IH]; simpl; [reflexivity|].
  rewrite isspace_lower_char. destruct (isspace c); [exact IH | reflexivity].
Qed.

Lemma rstrip_lower (s : string) : rstrip (lower s) = lower (rstrip s).
Proof.
  induction s as [|c s IH]; simpl; [reflexivity|].
  rewrite IH, isspace_lower_char.
  destruct (rstrip s) as [|d r]; simpl; [destruct (isspace c)|]; reflexivity.
Qed.

Lemma strip_lower (s : string) : strip (lower s) = lower (strip s).
Proof. unfold strip. now rewrite lstrip_lower, rstrip_lower. Qed.

(** The identity key is the lower-cased URL, trimmed: the two orders of
    trimming and lower-casing agree. *)
Lemma key_trim_lower (j : Job) : key j = strip (lower (url j)).
Proof. unfold key. now rewrite strip_lower. Qed.

(** ** Whitespace normalization *)


Lemma clean_collapse_ws (prev : bool) (s : string) :
  clean prev (collapse_ws prev s) = true.
Proof.
  revert prev. induction s as [|c s IH]; intros prev; simpl; [reflexivity|].
  destruct (isspace c) eqn:Hc.
  - destruct prev; simpl; [apply IH|]. now rewrite IH.
  - simpl. rewrite Hc. apply IH.
Qed.

Lemma collapse_ws_clean (prev : bool) (s : string) :
  clean prev s = true -> collapse_ws prev s = s.
Proof.
  revert prev. induction s as [|c s IH]; intros prev; simpl; [reflexivity|].
  destruct (isspace c) eqn:Hc; intros H.
  - apply andb_true_iff in H as [H Hs]. apply andb_true_iff in H as [Heq Hp].
    apply Ascii.eqb_eq in Heq. destruct prev; [discriminate|].
    subst c. now rewrite (IH true Hs).
  - now rewrite (IH false H).
Qed.

Lemma clean_lstrip (p q : bool) (s : string) :
  clean p s = true -> clean q (lstrip s) = true.
Proof.
  revert p. induction s as [|c s IH]; intros p; simpl; [reflexivity|].
  destruct (isspace c) eqn:Hc; intros H.
  - apply andb_true_iff in H as [_ Hs]. exact (IH true Hs).
  - simpl. now rewrite Hc.
Qed.

Lemma clean_rstrip (p : bool) (s : string) :
  clean p s = true -> clean p (rstrip s) = true.
Proof.
  revert p. induction s as [|c s IH]; intros p; simpl; [reflexivity|].
  destruct (isspace c) eqn:Hc; intros H.
  - apply andb_true_iff in H as [H Hs].
    specialize (IH true Hs).
    destruct (rstrip s) as [|d r]; [reflexivity|].
    simpl in *. rewrite Hc, H. exact IH.
  - specialize (IH false H).
    destruct (rstrip s) as [|d r]; simpl in *; rewrite Hc; [reflexivity | exact IH].
Qed.


Lemma lstrip_starts_clean (s : string) : starts_clean (lstrip s).
Proof.
  induction s as [|c s IH]; simpl; [exact I|].
  destruct (isspace c) eqn:Hc; [exact IH | exact Hc].
Qed.

Lemma lstrip_id (s : string) : starts_clean s -> lstrip s = s.
Proof. destruct s as [|c s]; simpl; [reflexivity|]. now intros ->. Qed.

Lemma rstrip_starts_clean (s : string) : starts_clean s -> starts_clean (rstrip s).
Proof.
  destruct s as [|c s]; simpl; [exact id|]. intros Hc.
  destruct (rstrip s); simpl; [now rewrite Hc | exact Hc].
Qed.

Lemma rstrip_idem (s : string) : rstrip (rstrip s) = rstrip s.
Proof.
  induction s as [|c s IH]; simpl; [reflexivity|].
  destruct (rstrip s) as [|d r] eqn:Hr.
  - destruct (isspace c) eqn:Hc; simpl; [reflexivity | now rewrite Hc].
  - change (rstrip (String c (String d r))
            = String c (String d r)).
    change (match rstrip (String d r) with
            | EmptyString => if isspace c then EmptyString else String c EmptyString
            | r' => String c r'
            end = String c (String d r)).
    now rewrite IH.
Qed.

Lemma strip_idem (s : string) : strip (strip s) = strip s.
Proof.
  unfold strip.
  rewrite (lstrip_id (rstrip (lstrip s))).
  - apply rstrip_idem.
  - apply rstrip_starts_clean, lstrip_starts_clean.
Qed.

Lemma normalize_space_clean (s : option string) :
  clean false (normalize_space s) = true.
Proof.
  unfold normalize_space, strip, re_sub_ws.
  apply clean_rstrip, (clean_lstrip false), clean_collapse_ws.
Qed.

(** Normalizing a normalized text changes nothing. *)
Lemma normalize_space_idem (s : option string) :
  normalize_space (Some (normalize_space s)) = normalize_space s.
Proof.
  pose proof (normalize_space_clean s) as Hc.
  unfold normalize_space at 1. unfold str_or.
  destruct (String.eqb_spec (normalize_space s) "") as [-> | _]; [reflexivity|].
  unfold re_sub_ws. rewrite (collapse_ws_clean _ _ Hc).
  unfold normalize_space. apply strip_idem.
Qed.

(** ** The substring test *)



(* ===================================================================== *)
(** * The Filter                                                          *)
(* ===================================================================== *)






(* ===================================================================== *)
(** * The global Deduplicator                                             *)
(* ===================================================================== *)

Lemma dict_get_set {V} (k k' : string) (v : V) (d : list (string * V)) :
  dict_get k' (dict_set k v d) = if String.eqb k k' then Some v else dict_get k' d.
Proof.
  induction d as [|[k0 v0] d IH]; simpl.
  - reflexivity.
  - destruct (String.eqb_spec k0 k) as [-> | Hne]; simpl.
    + destruct (String.eqb_spec k k'); reflexivity.
    + rewrite IH. destruct (String.eqb_spec k0 k') as [-> | Hne'];
        [|reflexivity].
      destruct (String.eqb_spec k k'); [congruence | reflexivity].
Qed.

Lemma dict_set_keys {V} (k : string) (v : V) (d : list (string * V)) :
  map fst (dict_set k v d)
  = if bool_decide (k ∈ map fst d) then map fst d else map fst d ++ [k].
Proof.
  induction d as [|[k0 v0] d IH]; simpl; [reflexivity|].
  destruct (String.eqb_spec k0 k) as [-> | Hne]; simpl.
  - rewrite bool_decide_eq_true_2; [reflexivity | left].
  - rewrite IH. destruct (bool_decide_reflect (k ∈ map fst d)) as [Hin | Hnin].
    + rewrite bool_decide_eq_true_2; [reflexivity | now right].
    + rewrite bool_decide_eq_false_2; [reflexivity|].
      intros Hk. apply elem_of_cons in Hk as [-> | Hk]; [congruence | contradiction].
Qed.

Lemma dict_get_elem {V} (k : string) (v : V) (d : list (string * V)) :
  NoDup (map fst d) -> (k, v) ∈ d <-> dict_get k d = Some v.
Proof.
  induction d as [|[k0 v0] d IH]; simpl; intros Hnd.
  - split; [intros H; inversion H | discriminate].
  - apply NoDup_cons in Hnd as [Hk0 Hnd]. rewrite elem_of_cons.
    destruct (String.eqb_spec k0 k) as [-> | Hne].
    + split.
      * intros [H | H]; [congruence|].
        exfalso. apply Hk0. apply (list_elem_of_fmap_2 fst) in H. exact H.
      * intros [= ->]. now left.
    + rewrite <- (IH Hnd). split; [intros [H | H]; [congruence | exact H] | now right].
Qed.

Lemma dedup_dict_snoc (l : list Job) (j : Job) :
  dedup_dict (l ++ [j]) = dict_set (key j) j (dedup_dict l).
Proof. unfold dedup_dict. now rewrite fold_left_app. Qed.

Lemma dedup_dict_NoDup (l : list Job) : NoDup (map fst (dedup_dict l)).
Proof.
  induction l as [|j l IH] using rev_ind; [constructor|].
  rewrite dedup_dict_snoc, dict_set_keys.
  case_bool_decide as Hin; [exact IH|].
  apply NoDup_app. split; [exact IH|]. split.
  - intros x Hx Hx'. apply list_elem_of_singleton in Hx'. now subst.
  - apply NoDup_singleton.
Qed.

Lemma last_with_key_snoc (k : string) (l : list Job) (j : Job) :
  last_with_key k (l ++ [j])
  = if String.eqb (key j) k then Some j else last_with_key k l.
Proof.
  unfold last_with_key. rewrite List.filter_app. simpl.
  destruct (String.eqb (key j) k).
  - apply last_snoc.
  - now rewrite app_nil_r.
Qed.

Lemma dedup_dict_get (l : list Job) (k : string) :
  dict_get k (dedup_dict l) = last_with_key k l.
Proof.
  induction l as [|j l IH] using rev_ind; [reflexivity|].
  now rewrite dedup_dict_snoc, dict_get_set, last_with_key_snoc, IH.
Qed.

Lemma last_with_key_Some (k : string) (l : list Job) (j : Job) :
  last_with_key k l = Some j -> key j = k /\ j ∈ l.
Proof.
  unfold last_with_key. intros H.
  apply last_Some_elem_of in H. apply list_elem_of_In, filter_In in H as [Hin Hk].
  apply String.eqb_eq in Hk. split; [exact Hk | now apply list_elem_of_In].
Qed.


Lemma dedup_dict_keyed (l : list Job) (k : string) (j : Job) :
  (k, j) ∈ dedup_dict l -> k = key j.
Proof.
  intros H. apply dict_get_elem in H; [|apply dedup_dict_NoDup].
  rewrite dedup_dict_get in H. apply last_with_key_Some in H as [H _]. now symmetry.
Qed.

Lemma dedupe_keys (l : list Job) : map key (dedupe l) = map fst (dedup_dict l).
Proof.
  unfold dedupe. rewrite map_map.
  apply map_ext_in. intros [k j] Hin. simpl.
  symmetry. apply (dedup_dict_keyed l). now apply list_elem_of_In.
Qed.

Lemma dedupe_elem (l : list Job) (j : Job) :
  j ∈ dedupe l <-> last_with_key (key j) l = Some j.
Proof.
  unfold dedupe. rewrite <- dedup_dict_get, <- dict_get_elem by apply dedup_dict_NoDup.
  split.
  - intros H. apply list_elem_of_fmap in H as ([k j'] & -> & H). simpl.
    now rewrite <- (dedup_dict_keyed _ _ _ H).
  - intros H. apply list_elem_of_fmap. now exists (key j, j).
Qed.


(* ===================================================================== *)
(** * The Sorter                                                          *)
(* ===================================================================== *)

Lemma pair_ltb_asym (x y : string * string) :
  pair_ltb x y = true -> pair_ltb y x = false.
Proof.
  unfold pair_ltb, String.ltb.
  rewrite (String.compare_antisym (fst x) (fst y)).
  rewrite (String.compare_antisym (snd x) (snd y)).
  destruct (String.compare (fst y) (fst x)), (String.compare (snd y) (snd x));
    simpl; congruence.
Qed.

Lemma pair_ltb_irrefl (x : string * string) : pair_ltb x x = false.
Proof.
  destruct (pair_ltb x x) eqn:H; [|reflexivity].
  now rewrite (pair_ltb_asym _ _ H) in H.
Qed.

(** The sort rearranges its input. *)
Lemma insert_desc_perm (x : Job) (l : list Job) : insert_desc x l ≡ₚ x :: l.
Proof.
  induction l as [|y l IH]; simpl; [reflexivity|].
  destruct (pair_ltb (sort_key x) (sort_key y)); [|reflexivity].
  rewrite IH. apply Permutation_swap.
Qed.

Lemma sort_jobs_perm (jobs : list Job) : sort_jobs jobs ≡ₚ jobs.
Proof.
  induction jobs as [|x l IH]; simpl; [reflexivity|].
  now rewrite insert_desc_perm, IH.
Qed.


Lemma insert_desc_sorted (x : Job) (l : list Job) :
  Sorted not_before l -> Sorted not_before (insert_desc x l).
Proof.
  induction l as [|y l IH]; simpl; intros Hs.
  - repeat constructor.
  - destruct (pair_ltb (sort_key x) (sort_key y)) eqn:Hxy.
    + apply Sorted_inv in Hs as [Hs Hhd]. constructor; [now apply IH|].
      destruct l as [|z l]; simpl.
      * constructor. now apply pair_ltb_asym.
      * destruct (pair_ltb (sort_key x) (sort_key z)).
        -- now apply HdRel_inv in Hhd; constructor.
        -- constructor. now apply pair_ltb_asym.
    + constructor; [exact Hs | now constructor].
Qed.

Lemma sort_jobs_sorted (jobs : list Job) : Sorted not_before (sort_jobs jobs).
Proof.
  induction jobs as [|x l IH]; simpl; [constructor | now apply insert_desc_sorted].
Qed.

(** The sort is stable: postings with the same key keep their input order. *)
Lemma insert_desc_stable (k : string * string) (x : Job) (l : list Job) :
  List.filter (fun j => bool_decide (sort_key j = k)) (insert_desc x l)
  = List.filter (fun j => bool_decide (sort_key j = k)) (x :: l).
Proof.
  induction l as [|y l IH]; [reflexivity|].
  cbn [insert_desc]. destruct (pair_ltb (sort_key x) (sort_key y)) eqn:Hxy;
    [|reflexivity].
  cbn [List.filter] in *. rewrite IH.
  destruct (bool_decide_reflect (sort_key x = k)) as [Hx | Hx];
    destruct (bool_decide_reflect (sort_key y = k)) as [Hy | Hy]; try reflexivity.
  rewrite Hx, Hy, pair_ltb_irrefl in Hxy. discriminate.
Qed.

Lemma sort_jobs_stable (k : string * string) (jobs : list Job) :
  List.filter (fun j => bool_decide (sort_key j = k)) (sort_jobs jobs)
  = List.filter (fun j => bool_decide (sort_key j = k)) jobs.
Proof.
  induction jobs as [|x l IH]; [reflexivity|].
  cbn [sort_jobs foldr]. fold (sort_jobs l).
  rewrite insert_desc_stable. cbn [List.filter]. now rewrite IH.
Qed.

(** C3 (as the code sorts).  With equal dates the posting whose source is
    larger comes first: for A (2024-05-01, source "x") and B (2024-05-01,
    source "a") the input [A, B] is returned as [A, B]. *)
Theorem sort_same_date_larger_source_first (A B : Job) :
  posted_dt A = Some "2024-05-01" -> source A = "x" ->
  posted_dt B = Some "2024-05-01" -> source B = "a" ->
  sort_jobs [A; B] = [A; B].
Proof.
  intros HdA HsA HdB HsB.
  unfold sort_jobs. cbn [foldr insert_desc].
  unfold sort_key. now rewrite HdA, HsA, HdB, HsB.
Qed.

Lemma sort_same_date_larger_source_first_witness :
  sort_jobs [job_A; job_B] = [job_A; job_B].
Proof.
  apply (sort_same_date_larger_source_first job_A job_B); reflexivity.
Defined.

(** C3 as stated fails: the input [A, B] does not come out as [B, A]. *)
Lemma sort_scenario_not_B_first :
  posted_dt job_A = Some "2024-05-01" /\ source job_A = "x"
  /\ posted_dt job_B = Some "2024-05-01" /\ source job_B = "a"
  /\ sort_jobs [job_A; job_B] <> [job_B; job_A].
Proof. repeat split. vm_compute. discriminate. Qed.

(* ===================================================================== *)
(** * The Extractor                                                       *)
(* ===================================================================== *)

Lemma bind_Ok_inv {A B} (m : result A) (f : A -> result B) (b : B) :
  m ≫= f = Ok b -> exists a, m = Ok a /\ f a = Ok b.
Proof. destruct m as [a|e]; [intros H; now exists a | discriminate]. Qed.

Lemma bind_Raise {A B} (m : result A) (f : A -> result B) (e : exn) :
  m = Raise e -> m ≫= f = Raise e.
Proof. now intros ->. Qed.


Lemma truthy_Some (o : option string) :
  truthy o = true -> exists s, o = Some s /\ s <> "" /\ str_or o "" = s.
Proof.
  destruct o as [s|]; [|discriminate]. unfold truthy, str_or.
  destruct (String.eqb_spec s ""); [discriminate|]. intros _. now exists s.
Qed.

Tactic Notation "inv_bind" hyp(H) "as" ident(a) ident(Ha) :=
  apply bind_Ok_inv in H as (a & Ha & H); cbv beta in H.

Section ExtractorFacts.
Context {L : Libs}.


Lemma sel_text_normalized (node : Tag) (sel : option string) (t : string) :
  sel_text node sel = Ok t -> normalize_space (Some t) = t.
Proof.
  unfold sel_text. destruct (truthy sel); simpl.
  - intros H. inv_bind H as el Hel. injection H as <-. apply normalize_space_idem.
  - now intros [= <-].
Qed.

Lemma card_job_fields (selectors : Selectors) (source_name : string)
    (default_location : option string) (card : Tag) (j : Job) :
  card_job selectors source_name default_location card = Ok (Some j) ->
  titled j /\ url j <> "" /\ source j = source_name.
Proof.
  unfold card_job. intros H.
  inv_bind H as t Ht. inv_bind H as c Hc. inv_bind H as loc Hloc.
  inv_bind H as url0 Hurl0. inv_bind H as url1 Hurl1. inv_bind H as p Hp.
  inv_bind H as sa Hsa. inv_bind H as sn Hsn.
  destruct (String.eqb_spec t "") as [-> | Hne]; simpl in H; [discriminate|].
  destruct (truthy url1) eqn:Hu; simpl in H; [|discriminate].
  injection H as <-. simpl.
  apply truthy_Some in Hu as (s & -> & Hs & Hor). simpl in *.
  repeat split; try assumption.
  - eapply sel_text_normalized, Ht.
  - now rewrite Hor.
Qed.

Lemma extract_cards_app (selectors : Selectors) (source_name : string)
    (default_location : option string) (cards : list Tag) (out out' : list Job) :
  extract_cards selectors source_name default_location cards out = Ok out' ->
  exists new, out' = out ++ new
    /\ Forall (fun j => titled j /\ url j <> "" /\ source j = source_name) new.
Proof.
  revert out. induction cards as [|card cards IH]; intros out; simpl.
  - intros [= <-]. exists []. now rewrite app_nil_r.
  - intros H. inv_bind H as oj Hoj. apply IH in H as (new & -> & Hnew).
    destruct oj as [j|].
    + exists (j :: new). rewrite <- app_assoc. split; [reflexivity|].
      constructor; [exact (card_job_fields _ _ _ _ _ Hoj) | exact Hnew].
    + now exists new.
Qed.

Lemma structured_pass_fields (soup : Tag) (selectors : Selectors)
    (source_name : string) (default_location : option string) (out : list Job) :
  structured_pass soup selectors source_name default_location = Ok out ->
  Forall (fun j => titled j /\ url j <> "" /\ source j = source_name) out.
Proof.
  unfold structured_pass. destruct (truthy (sel_container selectors)).
  - intros H. inv_bind H as cards Hcards.
    now apply extract_cards_app in H as (new & -> & Hnew).
  - intros [= <-]. constructor.
Qed.


Lemma fallback_job_titled (source_name : string) (default_location : option string)
    (a : Tag) (u : string) :
  titled (fallback_job source_name default_location a u).
Proof.
  unfold titled, fallback_job, str_or at 1 3. simpl.
  destruct (String.eqb_spec (normalize_space (Some (get_text a))) "") as [He | Hne].
  - split; [discriminate | reflexivity].
  - split; [exact Hne | apply normalize_space_idem].
Qed.

Lemma existsb_url (u : string) (out : list Job) :
  existsb (fun j => String.eqb (url j) u) out = bool_decide (u ∈ map url out).
Proof.
  induction out as [|j out IH]; simpl; [reflexivity|].
  rewrite IH. destruct (String.eqb_spec (url j) u) as [<- | Hne]; simpl.
  - symmetry. apply bool_decide_eq_true_2. left.
  - destruct (bool_decide_reflect (u ∈ map url out)) as [Hin | Hnin].
    + symmetry. apply bool_decide_eq_true_2. now right.
    + symmetry. apply bool_decide_eq_false_2. intros H.
      apply elem_of_cons in H as [-> | H]; [congruence | contradiction].
Qed.

(** One turn of the fallback loop on an anchor that qualifies. *)
Lemma harvest_links_step (pat : Pattern) (base source_name : string)
    (default_location : option string) (a : Tag) (rest : list Tag)
    (out : list Job) (href u : string) :
  get a "href" = Some href -> href <> "" -> search pat href = true ->
  urljoin base href = Ok u ->
  harvest_links pat base source_name default_location (a :: rest) out
  = harvest_links pat base source_name default_location rest
      (if bool_decide (u ∈ map url out) then out
       else out ++ [fallback_job source_name default_location a u]).
Proof.
  intros Hget Hne Hs Hu. simpl. rewrite Hget. simpl.
  destruct (String.eqb_spec href "") as [? | _]; [contradiction|].
  rewrite Hs, Hu. simpl. rewrite existsb_url.
  now destruct (bool_decide (u ∈ map url out)).
Qed.

Lemma harvest_links_app (pat : Pattern) (base source_name : string)
    (default_location : option string) (l1 l2 : list Tag) (out : list Job) :
  harvest_links pat base source_name default_location (l1 ++ l2) out
  = harvest_links pat base source_name default_location l1 out
    ≫= harvest_links pat base source_name default_location l2.
Proof.
  revert out. induction l1 as [|a l1 IH]; intros out; [reflexivity|].
  cbn [app harvest_links].
  destruct (String.eqb (default "" (get a "href")) ""
            || negb (search pat (default "" (get a "href")))); [apply IH|].
  destruct (urljoin base (default "" (get a "href"))) as [u|e]; simpl; [|reflexivity].
  destruct (existsb (fun j => String.eqb (url j) u) out); apply IH.
Qed.

Lemma harvest_links_spec (pat : Pattern) (base source_name : string)
    (default_location : option string) (anchors : list Tag) (out out' : list Job) :
  harvest_links pat base source_name default_location anchors out = Ok out' ->
  exists fb, out' = out ++ fb
    /\ Forall (harvested pat base source_name default_location anchors) fb
    /\ Forall (fun j => url j ∉ map url out) fb
    /\ NoDup (map url fb).
Proof.
  revert out. induction anchors as [|a anchors IH]; intros out.
  - intros [= <-]. exists []. rewrite app_nil_r. repeat split; constructor.
  - assert (forall fb,
              Forall (harvested pat base source_name default_location anchors) fb ->
              Forall (harvested pat base source_name default_location (a :: anchors)) fb)
      as Hweaken.
    { intros fb Hfb. eapply Forall_impl; [exact Hfb|].
      intros j (a' & h & Hin & Hrest).
      exists a', h. split; [now right | exact Hrest]. }
    cbn [harvest_links].
    destruct (get a "href") as [href|] eqn:Hget; simpl.
    2:{ intros H. apply IH in H as (fb & -> & H1 & H2 & H3).
        exists fb. auto. }
    destruct (String.eqb_spec href "") as [-> | Hne]; simpl.
    { intros H. apply IH in H as (fb & -> & H1 & H2 & H3). exists fb. auto. }
    destruct (search pat href) eqn:Hs; simpl.
    2:{ intros H. apply IH in H as (fb & -> & H1 & H2 & H3). exists fb. auto. }
    intros H. inv_bind H as u Hu.
    rewrite existsb_url in H.
    destruct (bool_decide_reflect (u ∈ map url out)) as [Hin | Hnin].
    + apply IH in H as (fb & -> & H1 & H2 & H3). exists fb. auto.
    + apply IH in H as (fb & -> & H1 & H2 & H3).
      exists (fallback_job source_name default_location a u :: fb).
      rewrite <- app_assoc. split; [reflexivity|].
      assert (Forall (fun j => (url j ∉ map url out) /\ (url j <> u)) fb) as H2'.
      { eapply Forall_impl; [exact H2|]. intros j Hj. simpl in Hj.
        rewrite map_app in Hj. simpl in Hj. split.
        - intros Hx. apply Hj. apply elem_of_app. now left.
        - intros Hx. apply Hj. apply elem_of_app. right. rewrite Hx. left. }
      split; [|split].
      * constructor; [|now apply Hweaken].
        exists a, href. repeat split; try assumption. left.
      * constructor; [exact Hnin|]. eapply Forall_impl; [exact H2'|]. now intros j [? _].
      * simpl. apply NoDup_cons. split; [|exact H3].
        intros Hx. apply list_elem_of_fmap in Hx as (j & Hj & Hjin).
        rewrite Forall_forall in H2'. destruct (H2' j Hjin) as [_ Hneq]. congruence.
Qed.

End ExtractorFacts.

Section ExtractorTheorems.
Context {L : Libs}.

(** ** Which faults can leave the Extractor *)









(** ** What the two passes put in the output *)

(** C9 (as the code behaves).  Every posting the Extractor returns has a
    title that is whitespace-normalized and not empty.  A posting of the
    structured pass has a url that is not the empty string; the url is
    resolved but not whitespace-normalized.  A posting of the fallback pass
    has as url the resolution against [base] of an href that is not
    empty. *)
Theorem extracted_postings_titled_and_linked (html : string) (rules : SiteCfg)
    (source_name : string) (default_location : option string) (jobs : list Job) :
  extract_jobs_from_html html rules source_name default_location = Ok jobs ->
  exists structured fallback,
    jobs = structured ++ fallback
    /\ structured_pass (BeautifulSoup html) (selectors rules) source_name
         default_location = Ok structured
    /\ Forall (fun j => titled j /\ url j <> "") structured
    /\ Forall (fun j => titled j
                        /\ from_href (str_or (sel_base (selectors rules)) "") j)
         fallback.
Proof.
  unfold extract_jobs_from_html. intros H. inv_bind H as out Hout.
  exists out. unfold fallback_pass in H.
  assert (Forall (fun j => titled j /\ url j <> "") out) as Hstruct.
  { eapply Forall_impl; [exact (structured_pass_fields _ _ _ _ _ Hout)|].
    now intros j (? & ? & _). }
  destruct (truthy (sel_link_pattern (selectors rules))).
  - inv_bind H as pat Hpat. inv_bind H as anchors Hanchors.
    apply harvest_links_spec in H as (fb & -> & Hfb & _ & _).
    exists fb. repeat split; try assumption.
    eapply Forall_impl; [exact Hfb|].
    intros j (a & href & _ & Hget & Hne & _ & Hu & ->). split.
    + apply fallback_job_titled.
    + now exists a, href.
  - injection H as <-. exists []. rewrite app_nil_r. repeat split; try assumption.
    constructor.
Qed.

(** C2 (as the code behaves).  When the fallback loop reaches an anchor
    whose href is not empty and matches [link_pattern], the list [cur] it
    has built so far holds the postings of the structured pass followed by
    the fallback postings of earlier anchors; a posting is synthesized for
    the anchor exactly when no posting of [cur] has a url equal, as a
    string, to the resolved URL. *)
Theorem fallback_synthesizes_unless_url_present (html : string) (rules : SiteCfg)
    (source_name : string) (default_location : option string)
    (out cur : list Job) (pat : Pattern) (l1 l2 : list Tag) (a : Tag)
    (href u : string) :
  structured_pass (BeautifulSoup html) (selectors rules) source_name
    default_location = Ok out ->
  truthy (sel_link_pattern (selectors rules)) = true ->
  re_compile (str_or (sel_link_pattern (selectors rules)) "") false = Ok pat ->
  select (BeautifulSoup html) "a[href]" = Ok (l1 ++ a :: l2) ->
  harvest_links pat (str_or (sel_base (selectors rules)) "") source_name
    default_location l1 out = Ok cur ->
  get a "href" = Some href -> href <> "" -> search pat href = true ->
  urljoin (str_or (sel_base (selectors rules)) "") href = Ok u ->
  (exists earlier,
     cur = out ++ earlier
     /\ Forall (harvested pat (str_or (sel_base (selectors rules)) "") source_name
                  default_location l1) earlier)
  /\ extract_jobs_from_html html rules source_name default_location
     = harvest_links pat (str_or (sel_base (selectors rules)) "") source_name
         default_location l2
         (if bool_decide (u ∈ map url cur) then cur
          else cur ++ [fallback_job source_name default_location a u]).
Proof.
  intros Hout Hp Hpat Hsel Hcur Hget Hne Hs Hu. split.
  - apply harvest_links_spec in Hcur as (fb & -> & Hfb & _). now exists fb.
  - unfold extract_jobs_from_html, fallback_pass.
    rewrite Hout. simpl. rewrite Hp, Hpat. simpl. rewrite Hsel. simpl.
    rewrite harvest_links_app, Hcur. simpl.
    now apply harvest_links_step with (href := href).
Qed.

End ExtractorTheorems.

(* ===================================================================== *)
(** * The PaginationResolver                                              *)
(* ===================================================================== *)

#[local] Arguments href_of {L} el : simpl never.

Section PaginationTheorems.
Context {L : Libs}.

Lemma resolve_fmap (base h : string) :
  (urljoin base h ≫= fun u => mret (Some u)) = Some <$> urljoin base h.
Proof. now destruct (urljoin base h). Qed.

Lemma href_of_Some (el : Tag) (h : string) :
  get el "href" = Some h -> h <> "" -> href_of (Some el) = Some h.
Proof.
  intros Hget Hne. unfold href_of. rewrite Hget. simpl.
  now destruct (String.eqb_spec h "").
Qed.

Lemma href_of_nonempty (el : option Tag) (h : string) :
  href_of el = Some h -> h <> "".
Proof.
  destruct el as [e|]; [|discriminate]. unfold href_of.
  destruct (truthy (get e "href")) eqn:Ht; [|discriminate].
  apply truthy_Some in Ht as (s & -> & Hs & _). now intros [= <-].
Qed.

(** [soup.find("a", string=pat)] is the first anchor, in document order,
    whose string the pattern matches. *)
Lemma find_a_string_first (soup : Tag) (pat : Pattern) (a : Tag) :
  find_a_string soup pat = Some a
  <-> exists l1 l2,
        find_all_a soup = l1 ++ a :: l2
        /\ string_matches pat a = true
        /\ Forall (fun x => string_matches pat x = false) l1.
Proof.
  unfold find_a_string. fold (string_matches pat).
  induction (find_all_a soup) as [|x l IH]; simpl.
  - split; [discriminate | intros (l1 & l2 & H & _)]. now destruct l1.
  - destruct (string_matches pat x) eqn:Hx.
    + split.
      * intros [= <-]. exists [], l. repeat split; [exact Hx | constructor].
      * intros (l1 & l2 & Heq & Ha & Hl1). destruct l1 as [|y l1].
        -- now injection Heq as -> _.
        -- injection Heq as -> _. apply Forall_cons in Hl1 as [Hy _]. congruence.
    + rewrite IH. split.
      * intros (l1 & l2 & -> & Ha & Hl1). exists (x :: l1), l2.
        repeat split; [exact Ha | now constructor].
      * intros (l1 & l2 & Heq & Ha & Hl1). destruct l1 as [|y l1].
        -- injection Heq as -> _. congruence.
        -- injection Heq as -> ->. apply Forall_cons in Hl1 as [_ Hl1].
           now exists l1, l2.
Qed.

Lemma text_heuristics_cons (soup : Tag) (base txt : string) (rest : list string) :
  text_heuristics soup base (txt :: rest)
  = phrase_href soup txt ≫= fun o =>
      match o with
      | Some h => Some <$> urljoin base h
      | None => text_heuristics soup base rest
      end.
Proof.
  cbn [text_heuristics]. unfold phrase_href.
  destruct (re_compile txt true) as [pat|e]; simpl; [|reflexivity].
  destruct (href_of (find_a_string soup pat)); [apply resolve_fmap | reflexivity].
Qed.

Lemma text_heuristics_skip (soup : Tag) (base : string) (before rest : list string) :
  Forall (fun t => phrase_href soup t = Ok None) before ->
  text_heuristics soup base (before ++ rest) = text_heuristics soup base rest.
Proof.
  induction before as [|t before IH]; intros H; [reflexivity|].
  apply Forall_cons in H as [Ht H].
  rewrite <- app_comm_cons, text_heuristics_cons, Ht. simpl. now apply IH.
Qed.

Lemma text_heuristics_resolved (soup : Tag) (base : string) (txts : list string)
    (u : string) :
  text_heuristics soup base txts = Ok (Some u) ->
  exists h, h <> "" /\ urljoin base h = Ok u.
Proof.
  induction txts as [|t txts IH]; [discriminate|].
  cbn [text_heuristics]. intros H. inv_bind H as pat Hpat.
  destruct (href_of (find_a_string soup pat)) as [h|] eqn:Hh; [|now apply IH].
  inv_bind H as u' Hu'. injection H as <-. exists h.
  split; [now apply href_of_nonempty in Hh | exact Hu'].
Qed.

(** What [find_next_url] does once the first tier is silent. *)
Lemma find_next_url_tier1_silent (soup : Tag) (s : Selectors) :
  tier1_silent soup s ->
  find_next_url soup s
  = select_one soup a_rel_next ≫= fun el2 =>
      match href_of el2 with
      | Some h => Some <$> urljoin (str_or (sel_base s) "") h
      | None => text_heuristics soup (str_or (sel_base s) "") next_phrases
      end.
Proof.
  intros H. unfold find_next_url.
  assert ((if truthy (sel_next_selector s)
           then select_one soup (str_or (sel_next_selector s) "")
           else Ok None) ≫= (fun el1 => mret (href_of el1)) = Ok None) as H1.
  { destruct H as [-> | (el & Hel & Hh)]; [reflexivity|].
    destruct (truthy (sel_next_selector s)); [|reflexivity].
    rewrite Hel. simpl. now rewrite Hh. }
  destruct (if truthy (sel_next_selector s)
            then select_one soup (str_or (sel_next_selector s) "")
            else Ok None) as [el1|e]; [|discriminate].
  simpl in H1. injection H1 as H1. simpl. rewrite H1.
  destruct (select_one soup a_rel_next) as [el2|e]; simpl; [|reflexivity].
  destruct (href_of el2); [apply resolve_fmap | reflexivity].
Qed.

(** C7 (as the code behaves).  The resolver answers, in this order of
    precedence: (1) the href of the first match of [next_selector], when
    that is set and the match has a non-empty href; (2) the href of the
    first element the selector [a[rel="next"]] matches, when it has one;
    (3) going through the phrases in the order "Seuraava", "Next",
    "Näytä lisää", "Load more", the href of the first anchor whose string
    matches the phrase at hand ignoring case, for the first phrase for which
    that anchor has an href.  The href is resolved against the rule's base;
    when no tier answers the result is none. *)
Theorem find_next_url_precedence (soup : Tag) (s : Selectors) :
  (forall el h,
     truthy (sel_next_selector s) = true ->
     select_one soup (str_or (sel_next_selector s) "") = Ok (Some el) ->
     get el "href" = Some h -> h <> "" ->
     find_next_url soup s = Some <$> urljoin (str_or (sel_base s) "") h)
  /\ (forall el h,
        tier1_silent soup s ->
        select_one soup a_rel_next = Ok (Some el) ->
        get el "href" = Some h -> h <> "" ->
        find_next_url soup s = Some <$> urljoin (str_or (sel_base s) "") h)
  /\ (forall earlier txt later h,
        tier1_silent soup s -> tier2_silent soup ->
        next_phrases = earlier ++ txt :: later ->
        Forall (fun t => phrase_href soup t = Ok None) earlier ->
        phrase_href soup txt = Ok (Some h) ->
        find_next_url soup s = Some <$> urljoin (str_or (sel_base s) "") h)
  /\ (tier1_silent soup s -> tier2_silent soup ->
      Forall (fun t => phrase_href soup t = Ok None) next_phrases ->
      find_next_url soup s = Ok None)
  /\ (forall u,
        find_next_url soup s = Ok (Some u) ->
        exists h, h <> "" /\ urljoin (str_or (sel_base s) "") h = Ok u).
Proof.
  repeat split.
  - intros el h Ht Hsel Hget Hne. unfold find_next_url.
    rewrite Ht, Hsel. cbn [mbind result_bind]. rewrite (href_of_Some _ _ Hget Hne).
    apply resolve_fmap.
  - intros el h H1 Hsel Hget Hne.
    rewrite (find_next_url_tier1_silent _ _ H1), Hsel. cbn [mbind result_bind].
    now rewrite (href_of_Some _ _ Hget Hne).
  - intros earlier txt later h H1 (el & Hel & Hh) Hphr Hearlier Htxt.
    rewrite (find_next_url_tier1_silent _ _ H1), Hel. cbn [mbind result_bind]. rewrite Hh, Hphr.
    rewrite (text_heuristics_skip _ _ _ _ Hearlier), text_heuristics_cons, Htxt.
    reflexivity.
  - intros H1 (el & Hel & Hh) Hall.
    rewrite (find_next_url_tier1_silent _ _ H1), Hel. cbn [mbind result_bind]. rewrite Hh.
    rewrite <- (app_nil_r next_phrases). now rewrite text_heuristics_skip.
  - intros u. unfold find_next_url. intros H. inv_bind H as el1 Hel1.
    destruct (href_of el1) as [h|] eqn:Hh1.
    { inv_bind H as u' Hu'. injection H as <-. exists h.
      split; [now apply href_of_nonempty in Hh1 | exact Hu']. }
    inv_bind H as el2 Hel2.
    destruct (href_of el2) as [h|] eqn:Hh2.
    { inv_bind H as u' Hu'. injection H as <-. exists h.
      split; [now apply href_of_nonempty in Hh2 | exact Hu']. }
    now apply text_heuristics_resolved in H.
Qed.

End PaginationTheorems.

(* ===================================================================== *)
(** * The Extractor and the PaginationResolver on concrete pages          *)
(* ===================================================================== *)

Section OnPages.
Import Toy Pages.




(** The listing page, when the fallback loop reaches the link [/job/1]:
    the card's posting has the url [/Job/1], so a posting is synthesized. *)
Lemma fallback_listing_witness :
  (exists earlier,
     [job_cook] = [job_cook] ++ earlier
     /\ Forall (harvested (L := example_libs) (mkPattern "/job/" false) "" "site" None
                  [TElem "a" [("href", "/Job/1")] [TText "apply"]]) earlier)
  /\ extract_jobs_from_html html_listing (rules_of sel_listing) "site" None
     = harvest_links (L := example_libs) (mkPattern "/job/" false) "" "site" None
         [a_cleaner; a_cleaner]
         ([job_cook] ++ [job_cook_copy]).
Proof.
  apply (fallback_synthesizes_unless_url_present (L := example_libs)
           html_listing (rules_of sel_listing)
           "site" None [job_cook] [job_cook] (mkPattern "/job/" false)
           [TElem "a" [("href", "/Job/1")] [TText "apply"]] [a_cleaner; a_cleaner]
           a_cook_copy "/job/1" "/job/1");
    first [reflexivity | discriminate].
Defined.

(** C2 as stated fails in both directions on the listing page.  The link
    [/job/1] gets a fallback posting although the structured pass produced
    a posting with the same identity key; the second link [/job/2] gets
    none although no posting of the structured pass has its key. *)
Lemma fallback_ignores_identity_key :
  structured_pass (L := example_libs) doc_listing sel_listing "site" None
  = Ok [job_cook]
  /\ select (Libs := example_libs) doc_listing "a[href]"
     = Ok [TElem "a" [("href", "/Job/1")] [TText "apply"];
           a_cook_copy; a_cleaner; a_cleaner]
  /\ extract_jobs_from_html html_listing (rules_of sel_listing) "site" None
     = Ok [job_cook; job_cook_copy; job_cleaner]
  /\ key job_cook_copy = key job_cook
  /\ key job_cleaner <> key job_cook.
Proof. repeat split. vm_compute. discriminate. Qed.

(** The listing page satisfies the statement about titles and links. *)
Lemma extracted_listing_witness :
  exists structured fallback,
    [job_cook; job_cook_copy; job_cleaner] = structured ++ fallback
    /\ structured_pass (BeautifulSoup html_listing) sel_listing "site" None
       = Ok structured
    /\ Forall (fun j => titled j /\ url j <> "") structured
    /\ Forall (fun j => titled j /\ from_href "" j) fallback.
Proof.
  apply (extracted_postings_titled_and_linked html_listing (rules_of sel_listing)
           "site" None).
  reflexivity.
Defined.

(** C9 as stated fails.  A card whose link is a single space yields a
    posting whose url is that space: not empty as a string, empty once
    whitespace is normalized, and so is its identity key.  Under a rule
    whose base is [#], the fallback pass turns the link [#] into a posting
    whose url is the empty string. *)
Lemma extractor_returns_blank_and_empty_url :
  extract_jobs_from_html html_blank_link (rules_of sel_cards_only) "site" None
  = Ok [mkJob "site" "Cook" "" "" " " (Some "") None (Some "") (Some "")]
  /\ normalize_space (Some " ") = ""
  /\ extract_jobs_from_html html_fragment (rules_of sel_fragment) "site" None
     = Ok [mkJob "site" "top" "" "" "" None None None (Some "")].
Proof. repeat split. Qed.

(** On a page whose only candidates are text links, the phrase "Seuraava"
    is tried first. *)
Lemma find_next_url_phrase_witness :
  find_next_url (L := example_libs) doc_two_phrases no_selectors
  = Some <$> urljoin "" "/s".
Proof.
  apply (proj1 (proj2 (proj2 (find_next_url_precedence (L := example_libs)
                                doc_two_phrases no_selectors)))
           [] "Seuraava" ["Next"; "Näytä lisää"; "Load more"] "/s").
  - now left.
  - exists None. split; reflexivity.
  - reflexivity.
  - constructor.
  - reflexivity.
Defined.

(** C7 as stated fails.  On a page with the links "Next" (to [/n]) and then
    "Seuraava" (to [/s]), with no [next_selector] and no [rel="next"], the
    first anchor whose text matches one of the phrases is "Next"; the
    resolver answers [/s]. *)
Lemma find_next_url_not_first_anchor :
  tier1_silent (L := example_libs) doc_two_phrases no_selectors
  /\ tier2_silent (L := example_libs) doc_two_phrases
  /\ find_all_a (Libs := example_libs) doc_two_phrases = [a_next; a_seuraava]
  /\ (exists pat, re_compile "Next" true = Ok pat
                  /\ search pat (get_text (Libs := example_libs) a_next) = true)
  /\ get (Libs := example_libs) a_next "href" = Some "/n"
  /\ urljoin "" "/n" = Ok "/n"
  /\ find_next_url (L := example_libs) doc_two_phrases no_selectors = Ok (Some "/s").
Proof.
  split; [now left|]. split; [exists None; split; reflexivity|].
  split; [reflexivity|]. split; [eexists; split; reflexivity|].
  repeat split.
Qed.

(** The three tiers on one page: [next_selector] wins over [rel="next"],
    which wins over the text links. *)
Example find_next_url_all_tiers :
  find_next_url (L := example_libs) doc_all_tiers sel_more
  = Ok (Some "https://jobs.example/m")
  /\ find_next_url (L := example_libs) doc_all_tiers sel_based
     = Ok (Some "https://jobs.example/r")
  /\ find_next_url (L := example_libs) (TElem "[document]" [] [a_next]) sel_based
     = Ok (Some "https://jobs.example/n")
  /\ find_next_url (L := example_libs) (TElem "[document]" [] []) sel_based = Ok None.
Proof. repeat split. Qed.

End OnPages.

(* ===================================================================== *)
(** * First-wins deduplication                                            *)
(* ===================================================================== *)

Lemma first_wins_from_app (K : gset string) (l1 l2 : list Job) :
  first_wins_from K (l1 ++ l2)
  = first_wins_from K l1 ++ first_wins_from (list_to_set (map key l1) ∪ K) l2.
Proof.
  revert K. induction l1 as [|j l1 IH]; intros K; simpl.
  - f_equal. set_solver.
  - case_bool_decide as Hj.
    + rewrite IH. do 2 f_equal. set_solver.
    + rewrite IH. simpl. do 3 f_equal. set_solver.
Qed.

Lemma first_wins_from_keys (K : gset string) (l : list Job) :
  list_to_set (map key (first_wins_from K l)) ∪ K
  = (list_to_set (map key l) ∪ K : gset string).
Proof.
  revert K. induction l as [|j l IH]; intros K; simpl; [reflexivity|].
  case_bool_decide as Hj.
  - rewrite IH. set_solver.
  - simpl. specialize (IH ({[key j]} ∪ K)).
    remember (list_to_set (map key (first_wins_from ({[key j]} ∪ K) l))) as A.
    remember (list_to_set (map key l)) as B.
    clear HeqA HeqB. set_unfold. intros x. specialize (IH x). tauto.
Qed.



(** A posting is kept exactly when it is the first of the list with its
    key (and the key is not among the earlier ones). *)
Lemma first_wins_from_elem (K : gset string) (l : list Job) (j : Job) :
  j ∈ first_wins_from K l <-> (key j ∉ K) /\ first_with_key j l.
Proof.
  revert K. induction l as [|x l IH]; intros K; simpl.
  - split; [intros H; inversion H | intros [_ (l1 & l2 & H & _)]].
    now destruct l1.
  - case_bool_decide as Hx.
    + rewrite IH. split.
      * intros [HS (l1 & l2 & -> & Hl1)]. split; [exact HS|].
        exists (x :: l1), l2. split; [reflexivity|]. simpl.
        intros Hin. apply elem_of_cons in Hin as [Heq | Hin]; [|contradiction].
        rewrite Heq in HS. contradiction.
      * intros [HS (l1 & l2 & Heq & Hl1)]. split; [exact HS|].
        destruct l1 as [|y l1]; simpl in Heq.
        -- injection Heq as -> _. contradiction.
        -- injection Heq as -> ->. exists l1, l2. split; [reflexivity|].
           intros Hin. apply Hl1. simpl. now right.
    + rewrite elem_of_cons, IH. split.
      * intros [-> | [HS (l1 & l2 & -> & Hl1)]].
        -- split; [exact Hx|]. exists [], l. split; [reflexivity|]. simpl. set_solver.
        -- split; [set_solver|]. exists (x :: l1), l2. split; [reflexivity|].
           simpl. set_solver.
      * intros [HS (l1 & l2 & Heq & Hl1)].
        destruct l1 as [|y l1]; simpl in Heq.
        -- injection Heq as -> _. now left.
        -- injection Heq as -> ->. right. split.
           ++ simpl in Hl1. set_solver.
           ++ exists l1, l2. split; [reflexivity|]. simpl in Hl1. set_solver.
Qed.

Lemma first_wins_elem (l : list Job) (j : Job) :
  j ∈ first_wins l <-> first_with_key j l.
Proof. unfold first_wins. rewrite first_wins_from_elem. set_solver. Qed.

Lemma take_short {A} (n : nat) (l : list A) :
  (length (take n l) < n)%nat -> take n l = l.
Proof.
  intros H. apply take_ge. rewrite length_take in H. lia.
Qed.

(* ===================================================================== *)
(** * Reading the log                                                     *)
(* ===================================================================== *)

Lemma fetched_app (a b : list Event) : fetched (a ++ b) = fetched a ++ fetched b.
Proof. apply omap_app. Qed.

Lemma appended_app (a b : list Event) : appended (a ++ b) = appended a ++ appended b.
Proof. apply omap_app. Qed.

Lemma extracted_app (a b : list Event) : extracted (a ++ b) = extracted a ++ extracted b.
Proof. unfold extracted. now rewrite omap_app, concat_app. Qed.

Lemma extractions_app (a b : list Event) :
  extractions (a ++ b) = (extractions a + extractions b)%nat.
Proof. unfold extractions. now rewrite omap_app, length_app. Qed.

Lemma appended_appends (new : list Job) : appended (map EvAppend new) = new.
Proof. induction new as [|j new IH]; simpl; [reflexivity|]. now f_equal. Qed.

Lemma fetched_appends (new : list Job) : fetched (map EvAppend new) = [].
Proof. induction new as [|j new IH]; simpl; [reflexivity | exact IH]. Qed.

Lemma extracted_appends (new : list Job) : extracted (map EvAppend new) = [].
Proof. induction new as [|j new IH]; simpl; [reflexivity | exact IH]. Qed.

Lemma extractions_appends (new : list Job) : extractions (map EvAppend new) = 0%nat.
Proof. induction new as [|j new IH]; simpl; [reflexivity | exact IH]. Qed.

Lemma appended_prefix_length (pre tr : list Event) :
  pre `prefix_of` tr -> (length (appended pre) <= length (appended tr))%nat.
Proof. intros [k ->]. rewrite appended_app, length_app. lia. Qed.

(* ===================================================================== *)
(** * The CrawlOrchestrator                                               *)
(* ===================================================================== *)

Section CrawlFacts.
Context {L : Libs} {Wd : World}.

(** ** The inner loop over one page's postings *)

Lemma add_jobs_frame (max_items : Z) (jobs : list Job) (st : CrawlState) :
  world (add_jobs max_items jobs st) = world st
  /\ exists new,
       results (add_jobs max_items jobs st) = results st ++ new
       /\ trace (add_jobs max_items jobs st) = trace st ++ map EvAppend new
       /\ seen (add_jobs max_items jobs st) = list_to_set (map key new) ∪ seen st.
Proof.
  revert st. induction jobs as [|j jobs IH]; intros st; cbn [add_jobs].
  - split; [reflexivity|]. exists []. rewrite !app_nil_r. repeat split. set_solver.
  - case_bool_decide as Hj; [apply IH|].
    assert (world (append_job j st) = world st
            /\ exists new,
                 results (append_job j st) = results st ++ new
                 /\ trace (append_job j st) = trace st ++ map EvAppend new
                 /\ seen (append_job j st) = list_to_set (map key new) ∪ seen st)
      as Hone.
    { split; [reflexivity|]. exists [j]. repeat split. simpl. set_solver. }
    destruct (max_items <=? Z.of_nat (length (results (append_job j st))));
      [exact Hone|].
    destruct (IH (append_job j st)) as (Hw & new & Hr & Ht & Hs).
    split; [exact Hw|]. exists (j :: new). simpl in *.
    rewrite Hr, Ht, Hs, <- !app_assoc. repeat split. set_solver.
Qed.

(** The batch is cut where the result list reaches the cap. *)
Lemma add_jobs_results (max_items : Z) (jobs : list Job) (st : CrawlState) :
  (length (results st) < Z.to_nat max_items)%nat ->
  results (add_jobs max_items jobs st)
  = take (Z.to_nat max_items) (results st ++ first_wins_from (seen st) jobs).
Proof.
  revert st. induction jobs as [|j jobs IH]; intros st Hlt; cbn [add_jobs first_wins_from].
  - rewrite app_nil_r. symmetry. apply take_ge. lia.
  - case_bool_decide as Hj; [now apply IH|].
    destruct (Z.leb_spec max_items (Z.of_nat (length (results (append_job j st)))))
      as [Hfull | Hroom]; simpl in *.
    + rewrite length_app in Hfull. simpl in Hfull.
      assert (Z.to_nat max_items = length (results st ++ [j])) as ->
        by (rewrite length_app; simpl; lia).
      rewrite (cons_middle j (results st) (first_wins_from _ jobs)), app_assoc.
      now rewrite take_app_length.
    + rewrite length_app in Hroom. simpl in Hroom.
      rewrite IH; simpl; [|rewrite length_app; simpl; lia].
      now rewrite <- app_assoc.
Qed.

(** ** The invariant *)

Lemma crawl_inv_init (max_items : Z) (w : W) :
  crawl_inv max_items (mkCrawlState [] ∅ w []).
Proof. repeat split. simpl. now destruct (Z.to_nat max_items). Qed.

Lemma crawl_inv_set_world (max_items : Z) (w : W) (st : CrawlState) :
  crawl_inv max_items st -> crawl_inv max_items (set_world w st).
Proof. exact id. Qed.

Lemma crawl_inv_log (max_items : Z) (e : Event) (st : CrawlState) :
  match e with
  | EvFetch _ | EvSleep _ => True
  | _ => False
  end ->
  crawl_inv max_items st -> crawl_inv max_items (log e st).
Proof.
  intros He (H1 & H2 & H3). unfold crawl_inv, log. simpl.
  rewrite appended_app, extracted_app.
  destruct e; try contradiction; simpl; rewrite !app_nil_r; auto.
Qed.

(** Extracting a page keeps the invariant, provided the cap was not reached
    when the page was fetched. *)
Lemma crawl_inv_extract (max_items : Z) (jobs : list Job) (st : CrawlState) :
  (length (results st) < Z.to_nat max_items)%nat ->
  crawl_inv max_items st ->
  crawl_inv max_items (add_jobs max_items jobs (log (EvExtract jobs) st)).
Proof.
  intros Hlt (H1 & H2 & H3).
  pose proof (add_jobs_frame max_items jobs (log (EvExtract jobs) st))
    as (_ & new & Hr & Ht & Hs).
  pose proof (add_jobs_results max_items jobs (log (EvExtract jobs) st) Hlt) as Hcut.
  simpl in *. repeat split.
  - rewrite Hr, Ht, !appended_app, appended_appends. simpl.
    now rewrite app_nil_r, <- H1.
  - rewrite Hs, Hr, H2, map_app, list_to_set_app_L. set_solver.
  - rewrite Hcut, Ht, !extracted_app, extracted_appends, app_nil_r.
    change (extracted [EvExtract jobs]) with (jobs ++ []).
    rewrite app_nil_r. unfold first_wins. rewrite first_wins_from_app.
    assert (results st = first_wins_from ∅ (extracted (trace st))) as Hall.
    { rewrite H3. apply take_short. unfold first_wins in H3. now rewrite <- H3. }
    rewrite <- Hall. do 3 f_equal.
    rewrite H2, Hall.
    pose proof (first_wins_from_keys ∅ (extracted (trace st))) as Hk.
    revert Hk.
    generalize (list_to_set (map key (first_wins_from ∅ (extracted (trace st))))
                : gset string).
    generalize (list_to_set (map key (extracted (trace st))) : gset string).
    intros B A Hk. set_solver.
Qed.

End CrawlFacts.

Section WalkFacts.
Context {L : Libs} {Wd : World}.

Lemma advances_refl (max_items : Z) (n : nat) (st : CrawlState) :
  advances max_items n st st.
Proof.
  exists []. rewrite app_nil_r.
  split; [reflexivity|]. split; [cbn; lia|]. split; [cbn; lia | exact id].
Qed.

Lemma advances_trans (max_items : Z) (n1 n2 n : nat) (st1 st2 st3 : CrawlState) :
  (n1 + n2 <= n)%nat ->
  advances max_items n1 st1 st2 -> advances max_items n2 st2 st3 ->
  advances max_items n st1 st3.
Proof.
  intros Hn (new1 & Ht1 & Hf1 & He1 & Hi1) (new2 & Ht2 & Hf2 & He2 & Hi2).
  exists (new1 ++ new2). rewrite Ht2, Ht1, <- app_assoc.
  rewrite fetched_app, extractions_app, length_app.
  split; [reflexivity|]. split; [lia|]. split; [lia | auto].
Qed.

(** A failed fetch is [fetch_url] returning [None]. *)
Lemma fetch_fails_None (u : string) (w w' : W) :
  fetch_fails u w w' -> fetch_url u w = (None, w').
Proof.
  unfold fetch_url. intros [[e ->] | (r & -> & Hr)]; [reflexivity|].
  destruct (Z.eqb_spec (status_code r) 200); [contradiction | reflexivity].
Qed.

Lemma loop_cond_true (cfg : SiteCfg) (max_items : Z) (url : option string)
    (pages_seen : Z) (st : CrawlState) :
  loop_cond cfg max_items url pages_seen st = true ->
  truthy url = true /\ pages_seen < max_pages cfg
  /\ (length (results st) < Z.to_nat max_items)%nat.
Proof.
  unfold loop_cond. rewrite !andb_true_iff, !Z.ltb_lt. intros [[? ?] ?].
  repeat split; [assumption | assumption | lia].
Qed.

(** One turn of the loop fetches at most once, extracts only what it
    fetched, keeps the invariant, and counts the page when it goes on. *)
Lemma walk_body_turn (name : string) (cfg : SiteCfg) (max_items : Z)
    (default_loc : option string) (url : option string) (pages_seen : Z)
    (visited : gset string) (st : CrawlState) :
  (length (results st) < Z.to_nat max_items)%nat ->
  match walk_body name cfg max_items default_loc url pages_seen visited st with
  | Leave o st' => o <> OutOfFuel /\ advances max_items 1 st st'
  | Again _ pages_seen' _ st' =>
      pages_seen' = pages_seen + 1 /\ advances max_items 1 st st'
  end.
Proof.
  intros Hlt. unfold walk_body.
  case_bool_decide as Hv; [split; [discriminate | apply advances_refl]|].
  destruct (fetch_url (str_or url "") (world st)) as [html w1].
  set (st1 := log (EvFetch (str_or url "")) (set_world w1 st)).
  assert (advances max_items 1 st st1) as H1.
  { exists [EvFetch (str_or url "")].
    split; [reflexivity|]. split; [cbn; lia|]. split; [cbn; lia|].
    intros Hi. now apply crawl_inv_log, crawl_inv_set_world. }
  destruct (negb (truthy html)); [split; [discriminate | exact H1]|].
  destruct (extract_jobs_from_html (str_or html "") cfg name default_loc)
    as [jobs|e]; [|split; [discriminate | exact H1]].
  set (st2 := add_jobs max_items jobs (log (EvExtract jobs) st1)).
  assert (advances max_items 1 st st2) as H2.
  { pose proof (add_jobs_frame max_items jobs (log (EvExtract jobs) st1))
      as (_ & new & _ & Ht & _).
    exists (EvFetch (str_or url "") :: EvExtract jobs :: map EvAppend new).
    fold st2 in Ht. rewrite Ht. simpl.
    rewrite <- !app_assoc. simpl.
    change (fetched (EvFetch (str_or url "") :: EvExtract jobs :: map EvAppend new))
      with (str_or url "" :: fetched (map EvAppend new)).
    change (extractions (EvFetch (str_or url "") :: EvExtract jobs :: map EvAppend new))
      with (Datatypes.S (extractions (map EvAppend new))).
    rewrite fetched_appends, extractions_appends.
    split; [reflexivity|]. split; [cbn; lia|]. split; [cbn; lia|].
    intros Hi. apply crawl_inv_extract; [exact Hlt|].
    now apply crawl_inv_log, crawl_inv_set_world. }
  assert (forall w3 : W, advances max_items 1 st (set_world w3 st2)) as H3.
  { intros w3. destruct H2 as (new & Ht & Hf & He & Hi). now exists new. }
  destruct (max_items <=? Z.of_nat (length (results st2)));
    [split; [discriminate | exact H2]|].
  destruct (find_next_url (BeautifulSoup (str_or html "")) (selectors cfg))
    as [next_url|e]; [|split; [discriminate | exact H2]].
  destruct (truthy next_url); [|split; [reflexivity | exact H2]].
  destruct (time_sleep (delay cfg) (world st2)) as [[[]|e] w3].
  - split; [reflexivity|].
    destruct (H3 w3) as (new & Ht & Hf & He & Hi).
    exists (new ++ [EvSleep (delay cfg)]). simpl in *.
    rewrite Ht, <- app_assoc, fetched_app, extractions_app, length_app.
    split; [reflexivity|]. split; [cbn; lia|]. split; [cbn; lia|].
    intros Hinv. now apply crawl_inv_log, Hi.
  - split; [discriminate | apply H3].
Qed.

(** A walk never runs out of a budget of [max_pages - pages_seen] turns; it
    fetches at most that many pages and keeps the invariant. *)
Lemma walk_run (name : string) (cfg : SiteCfg) (max_items : Z)
    (default_loc : option string) (fuel : nat) (url : option string)
    (pages_seen : Z) (visited : gset string) (st : CrawlState) :
  ((Z.to_nat (max_pages cfg - pages_seen) <= fuel)%nat ->
   fst (walk fuel name cfg max_items default_loc url pages_seen visited st)
   <> OutOfFuel)
  /\ advances max_items (Z.to_nat (max_pages cfg - pages_seen)) st
       (snd (walk fuel name cfg max_items default_loc url pages_seen visited st)).
Proof.
  revert url pages_seen visited st.
  induction fuel as [|fuel IH]; intros url pages_seen visited st; cbn [walk].
  - destruct (loop_cond cfg max_items url pages_seen st) eqn:Hc; simpl.
    + apply loop_cond_true in Hc as (_ & Hp & _).
      split; [lia | apply advances_refl].
    + split; [discriminate | apply advances_refl].
  - destruct (loop_cond cfg max_items url pages_seen st) eqn:Hc; simpl;
      [|split; [discriminate | apply advances_refl]].
    apply loop_cond_true in Hc as (_ & Hp & Hlt).
    pose proof (walk_body_turn name cfg max_items default_loc url pages_seen
                  visited st Hlt) as Hturn.
    destruct (walk_body name cfg max_items default_loc url pages_seen visited st)
      as [o st' | url' pages_seen' visited' st'].
    + destruct Hturn as [Ho Hadv]. simpl. split; [now intros _|].
      apply (advances_trans max_items 1 0 _ st st' st');
        [lia | exact Hadv | apply advances_refl].
    + destruct Hturn as [-> Hadv].
      destruct (IH url' (pages_seen + 1) visited' st') as [Hfuel Hadv'].
      split; [intros Hle; apply Hfuel; lia|].
      apply (advances_trans max_items 1
               (Z.to_nat (max_pages cfg - (pages_seen + 1))) _ st st' _);
        [lia | exact Hadv | exact Hadv'].
Qed.

(** Fuel beyond what a walk uses changes nothing. *)
Lemma walk_more_fuel (name : string) (cfg : SiteCfg) (max_items : Z)
    (default_loc : option string) (fuel extra : nat) (url : option string)
    (pages_seen : Z) (visited : gset string) (st : CrawlState) :
  fst (walk fuel name cfg max_items default_loc url pages_seen visited st)
  <> OutOfFuel ->
  walk (fuel + extra) name cfg max_items default_loc url pages_seen visited st
  = walk fuel name cfg max_items default_loc url pages_seen visited st.
Proof.
  revert url pages_seen visited st.
  induction fuel as [|fuel IH]; intros url pages_seen visited st; simpl.
  - destruct (loop_cond cfg max_items url pages_seen st) eqn:Hc; simpl;
      [congruence|].
    intros _. destruct extra; cbn [walk]; now rewrite Hc.
  - destruct (loop_cond cfg max_items url pages_seen st); [|reflexivity].
    destruct (walk_body name cfg max_items default_loc url pages_seen visited st);
      [reflexivity | apply IH].
Qed.

(** The loop over the start URLs: it ends, and keeps the invariant. *)
Lemma crawl_pages_run (name : string) (cfg : SiteCfg) (max_items : Z)
    (pages : list (string * option string)) (st : CrawlState) :
  fst (crawl_pages name cfg max_items pages st) <> OutOfFuel
  /\ (crawl_inv max_items st ->
      crawl_inv max_items (snd (crawl_pages name cfg max_items pages st)))
  /\ trace st `prefix_of` trace (snd (crawl_pages name cfg max_items pages st)).
Proof.
  revert st. induction pages as [|[start_url default_loc] pages IH]; intros st;
    cbn [crawl_pages].
  - split; [discriminate|]. split; [exact id | reflexivity].
  - pose proof (walk_run name cfg max_items default_loc (Z.to_nat (max_pages cfg))
                  (Some start_url) 0 ∅ st) as [Hfuel (new & Ht & _ & _ & Hinv)].
    destruct (walk (Z.to_nat (max_pages cfg)) name cfg max_items default_loc
                (Some start_url) 0 ∅ st) as [o st'] eqn:Hw.
    simpl in *.
    assert (o <> OutOfFuel) as Ho by (apply Hfuel; lia).
    assert (trace st `prefix_of` trace st') as Hpre by (now exists new).
    destruct o; [|split; [discriminate | split; assumption] | contradiction].
    destruct (IH st') as (H1 & H2 & H3).
    split; [exact H1|]. split; [auto | now transitivity (trace st')].
Qed.

End WalkFacts.

Section WalkFresh.
Context {L : Libs} {Wd : World}.

Lemma add_jobs_fetched (max_items : Z) (jobs : list Job) (st : CrawlState) :
  fetched (trace (add_jobs max_items jobs st)) = fetched (trace st).
Proof.
  destruct (add_jobs_frame max_items jobs st) as (_ & new & _ & Ht & _).
  now rewrite Ht, fetched_app, fetched_appends, app_nil_r.
Qed.

(** One turn fetches nothing, or the URL at hand, which was not visited
    before and is visited from then on. *)
Lemma walk_body_fetches (name : string) (cfg : SiteCfg) (max_items : Z)
    (default_loc : option string) (url : option string) (pages_seen : Z)
    (visited : gset string) (st : CrawlState) :
  match walk_body name cfg max_items default_loc url pages_seen visited st with
  | Leave _ st' =>
      fetched (trace st') = fetched (trace st)
      \/ ((str_or url "" ∉ visited)
          /\ fetched (trace st') = fetched (trace st) ++ [str_or url ""])
  | Again _ _ visited' st' =>
      (str_or url "" ∉ visited)
      /\ visited' = {[str_or url ""]} ∪ visited
      /\ fetched (trace st') = fetched (trace st) ++ [str_or url ""]
  end.
Proof.
  unfold walk_body.
  case_bool_decide as Hv; [now left|].
  destruct (fetch_url (str_or url "") (world st)) as [html w1].
  set (st1 := log (EvFetch (str_or url "")) (set_world w1 st)).
  assert (fetched (trace st1) = fetched (trace st) ++ [str_or url ""]) as H1.
  { unfold st1, log. simpl. now rewrite fetched_app. }
  destruct (negb (truthy html)); [now right|].
  destruct (extract_jobs_from_html (str_or html "") cfg name default_loc)
    as [jobs|e]; [|now right].
  set (st2 := add_jobs max_items jobs (log (EvExtract jobs) st1)).
  assert (fetched (trace st2) = fetched (trace st) ++ [str_or url ""]) as H2.
  { unfold st2. rewrite add_jobs_fetched. unfold log. simpl.
    rewrite fetched_app. simpl. now rewrite app_nil_r. }
  destruct (max_items <=? Z.of_nat (length (results st2))); [now right|].
  destruct (find_next_url (BeautifulSoup (str_or html "")) (selectors cfg))
    as [next_url|e]; [|now right].
  destruct (truthy next_url); [|now repeat split].
  destruct (time_sleep (delay cfg) (world st2)) as [[[]|e] w3]; [|now right].
  repeat split; [exact Hv|]. unfold log. simpl.
  rewrite fetched_app. simpl. now rewrite app_nil_r.
Qed.

(** A walk fetches no URL twice, and none that was visited before. *)
Lemma walk_fetches_fresh (name : string) (cfg : SiteCfg) (max_items : Z)
    (default_loc : option string) (fuel : nat) (url : option string)
    (pages_seen : Z) (visited : gset string) (st : CrawlState) :
  exists us,
    fetched (trace (snd (walk fuel name cfg max_items default_loc url pages_seen
                           visited st)))
    = fetched (trace st) ++ us
    /\ NoDup us /\ Forall (fun u => u ∉ visited) us.
Proof.
  revert url pages_seen visited st.
  induction fuel as [|fuel IH]; intros url pages_seen visited st; cbn [walk].
  - exists []. rewrite app_nil_r.
    destruct (loop_cond cfg max_items url pages_seen st); repeat split; constructor.
  - destruct (loop_cond cfg max_items url pages_seen st);
      [|exists []; rewrite app_nil_r; repeat split; constructor].
    pose proof (walk_body_fetches name cfg max_items default_loc url pages_seen
                  visited st) as Hturn.
    destruct (walk_body name cfg max_items default_loc url pages_seen visited st)
      as [o st' | url' pages_seen' visited' st']; simpl.
    + destruct Hturn as [-> | [Hv ->]].
      * exists []. rewrite app_nil_r. repeat split; constructor.
      * exists [str_or url ""]. repeat split.
        -- apply NoDup_singleton.
        -- now constructor.
    + destruct Hturn as (Hv & -> & Hf).
      destruct (IH url' pages_seen' ({[str_or url ""]} ∪ visited) st')
        as (us & Hus & Hnd & Hfresh).
      exists (str_or url "" :: us). rewrite Hus, Hf, <- app_assoc.
      split; [reflexivity|]. split.
      * apply NoDup_cons. split; [|exact Hnd].
        intros Hin. rewrite Forall_forall in Hfresh.
        specialize (Hfresh _ Hin). set_solver.
      * constructor; [exact Hv|].
        eapply Forall_impl; [exact Hfresh|]. intros u Hu. set_solver.
Qed.

End WalkFresh.




Section CrawlTheorems.
Context {L : Libs} {Wd : World}.

Lemma crawl_site_inv (name : string) (cfg : SiteCfg) (max_items : Z) (w : W) :
  crawl_inv max_items (snd (crawl_site name cfg max_items w)).
Proof.
  unfold crawl_site.
  now apply (crawl_pages_run name cfg max_items (build_pages cfg)), crawl_inv_init.
Qed.

(** C4.  The walk of one start URL ends: the budget of [max_pages] turns
    that the model gives it is never used up, and a larger budget changes
    nothing.  It fetches at most [max_pages] pages, none of them twice, and
    extracts no page it did not fetch.  When the URL at hand was already
    visited in this walk,
    the walk ends at once, with no fetch; when its fetch fails (transport
    error or a status other than 200), the walk ends after that one fetch. *)
Theorem walk_terminates_within_max_pages (name : string) (cfg : SiteCfg)
    (max_items : Z) (default_loc : option string) (start_url : string)
    (st : CrawlState) :
  fst (walk (Z.to_nat (max_pages cfg)) name cfg max_items default_loc
         (Some start_url) 0 ∅ st) <> OutOfFuel
  /\ (forall extra,
        walk (Z.to_nat (max_pages cfg) + extra) name cfg max_items default_loc
          (Some start_url) 0 ∅ st
        = walk (Z.to_nat (max_pages cfg)) name cfg max_items default_loc
            (Some start_url) 0 ∅ st)
  /\ (exists new,
        trace (snd (walk (Z.to_nat (max_pages cfg)) name cfg max_items default_loc
                      (Some start_url) 0 ∅ st)) = trace st ++ new
        /\ (length (fetched new) <= Z.to_nat (max_pages cfg))%nat
        /\ NoDup (fetched new)
        /\ (extractions new <= length (fetched new))%nat)
  /\ (forall fuel url pages_seen visited st0,
        str_or url "" ∈ visited ->
        walk (Datatypes.S fuel) name cfg max_items default_loc url pages_seen
          visited st0 = (Finished, st0))
  /\ (forall fuel url pages_seen visited st0 w1,
        loop_cond cfg max_items url pages_seen st0 = true ->
        str_or url "" ∉ visited ->
        fetch_fails (str_or url "") (world st0) w1 ->
        walk (Datatypes.S fuel) name cfg max_items default_loc url pages_seen
          visited st0
        = (Finished, log (EvFetch (str_or url "")) (set_world w1 st0))).
Proof.
  pose proof (walk_run name cfg max_items default_loc (Z.to_nat (max_pages cfg))
                (Some start_url) 0 ∅ st) as [Hfuel (new & Ht & Hf & He & _)].
  assert (fst (walk (Z.to_nat (max_pages cfg)) name cfg max_items default_loc
                 (Some start_url) 0 ∅ st) <> OutOfFuel) as Hend
    by (apply Hfuel; lia).
  split; [exact Hend|]. split; [intros extra; now apply walk_more_fuel|].
  split.
  { exists new. rewrite Z.sub_0_r in Hf.
    destruct (walk_fetches_fresh name cfg max_items default_loc
                (Z.to_nat (max_pages cfg)) (Some start_url) 0 ∅ st)
      as (us & Hus & Hnd & _).
    rewrite Ht, fetched_app in Hus. apply app_inv_head in Hus.
    rewrite <- Hus in Hnd. auto. }
  split.
  - intros fuel url pages_seen visited st0 Hin. cbn [walk].
    destruct (loop_cond cfg max_items url pages_seen st0); [|reflexivity].
    unfold walk_body. now rewrite bool_decide_eq_true_2.
  - intros fuel url pages_seen visited st0 w1 Hc Hnin Hfail. cbn [walk].
    rewrite Hc. unfold walk_body. rewrite bool_decide_eq_false_2 by exact Hnin.
    now rewrite (fetch_fails_None _ _ _ Hfail).
Qed.

(** C5.  The result list of a site's crawl never holds more than
    [max_items] postings (none when the cap is zero or negative): not at the
    end, and not at any moment before, the list at a moment being the
    postings appended so far.  The cap counts the whole site, all start URLs
    together, and a page's batch is cut where the list reaches the cap. *)
Theorem crawl_site_never_exceeds_cap (name : string) (cfg : SiteCfg)
    (max_items : Z) (w : W) :
  results (snd (crawl_site name cfg max_items w))
  = appended (trace (snd (crawl_site name cfg max_items w)))
  /\ (length (results (snd (crawl_site name cfg max_items w)))
      <= Z.to_nat max_items)%nat
  /\ (0 <= max_items ->
      Z.of_nat (length (results (snd (crawl_site name cfg max_items w))))
      <= max_items)
  /\ (forall pre,
        pre `prefix_of` trace (snd (crawl_site name cfg max_items w)) ->
        (length (appended pre) <= Z.to_nat max_items)%nat)
  /\ (forall jobs st0,
        (length (results st0) < Z.to_nat max_items)%nat ->
        results (add_jobs max_items jobs st0)
        = take (Z.to_nat max_items)
            (results st0 ++ first_wins_from (seen st0) jobs)).
Proof.
  pose proof (crawl_site_inv name cfg max_items w) as (H1 & _ & H3).
  assert (length (results (snd (crawl_site name cfg max_items w)))
          <= Z.to_nat max_items)%nat as Hlen.
  { rewrite H3, length_take. lia. }
  split; [exact H1|]. split; [exact Hlen|]. split; [lia|]. split.
  - intros pre Hpre. apply appended_prefix_length in Hpre. rewrite <- H1 in Hpre. lia.
  - intros jobs st0. apply add_jobs_results.
Qed.


End CrawlTheorems.

(* ===================================================================== *)
(** * The crawl of the two-page site                                      *)
(* ===================================================================== *)

Section OnSite.
Import Toy Pages.

(** The walk of the two-page site follows [rel="next"] from the first page
    to the second and stops when the second points back to the first: two
    fetches, none repeated. *)
Example crawl_two_pages :
  fst (crawl_site "site" cfg_site 120 []) = Finished
  /\ map title (results (snd (crawl_site "site" cfg_site 120 [])))
     = ["Cook"; "Cleaner"; "Picker"]
  /\ fetched (trace (snd (crawl_site "site" cfg_site 120 [])))
     = ["https://jobs.example/p1"; "https://jobs.example/p2"]
  /\ world (snd (crawl_site "site" cfg_site 120 []))
     = ["https://jobs.example/p1"; "https://jobs.example/p2"].
Proof. vm_compute. repeat split. Qed.

(** With a cap of one posting, the first page's batch is cut after its
    first card and the second page is never fetched. *)
Example crawl_capped :
  map title (results (snd (crawl_site "site" cfg_site 1 []))) = ["Cook"]
  /\ fetched (trace (snd (crawl_site "site" cfg_site 1 [])))
     = ["https://jobs.example/p1"].
Proof. vm_compute. repeat split. Qed.

(** A page that answers 404 ends its walk after one request. *)
Example crawl_gone :
  crawl_site "site"
    (mkSiteCfg sel_site None None (Some "https://jobs.example/gone") None None None)
    120 []
  = (Finished,
     mkCrawlState (Wd := example_world) [] ∅ ["https://jobs.example/gone"]
       [EvFetch "https://jobs.example/gone"]).
Proof. reflexivity. Qed.

(** The walk from the first page of the two-page site ends within its
    budget of four turns. *)
Lemma walk_site_witness :
  fst (walk 4 "site" cfg_site 120 None (Some "https://jobs.example/p1") 0 ∅
         (mkCrawlState (Wd := example_world) [] ∅ [] []))
  <> OutOfFuel.
Proof.
  apply (proj1 (walk_terminates_within_max_pages (L := example_libs)
                  (Wd := example_world) "site" cfg_site 120 None
                  "https://jobs.example/p1"
                  (mkCrawlState (Wd := example_world) [] ∅ [] []))).
Defined.

(** Under a cap of one posting the two-page site yields at most one. *)
Lemma crawl_cap_witness :
  (length (results (snd (crawl_site "site" cfg_site 1 []))) <= 1)%nat.
Proof.
  apply (proj1 (proj2 (crawl_site_never_exceeds_cap (L := example_libs)
                         (Wd := example_world) "site" cfg_site 1 []))).
Defined.


End OnSite.

(* ===================================================================== *)
(** * More about the string helpers                                       *)
(* ===================================================================== *)

Lemma all_chars_app (p : ascii -> bool) (s t : string) :
  all_chars p (s +:+ t) = all_chars p s && all_chars p t.
Proof.
  induction s as [|c s IH]; simpl; [reflexivity|]. now rewrite IH, andb_assoc.
Qed.

Lemma all_chars_impl (p q : ascii -> bool) (s : string) :
  (forall c, p c = true -> q c = true) ->
  all_chars p s = true -> all_chars q s = true.
Proof.
  intros Hpq. induction s as [|c s IH]; simpl; [reflexivity|].
  rewrite !andb_true_iff. intros [Hc Hs]. auto.
Qed.





Lemma lstrip_empty_iff (s : string) :
  lstrip s = "" <-> all_chars isspace s = true.
Proof.
  induction s as [|c s IH]; simpl; [tauto|].
  destruct (isspace c); simpl; [exact IH | split; discriminate].
Qed.

Lemma rstrip_empty_iff (s : string) :
  rstrip s = "" <-> all_chars isspace s = true.
Proof.
  induction s as [|c s IH]; simpl; [tauto|].
  destruct (rstrip s) as [|d r].
  - destruct (isspace c); simpl.
    + split; [intros _; now apply IH | reflexivity].
    + split; discriminate.
  - split; [discriminate|]. rewrite andb_true_iff. intros [_ Hs].
    apply IH in Hs. discriminate.
Qed.








(** ** The identity key *)

Lemma lstrip_app_space (pre s : string) :
  all_chars isspace pre = true -> lstrip (pre +:+ s) = lstrip s.
Proof.
  induction pre as [|c pre IH]; simpl; [reflexivity|].
  rewrite andb_true_iff. intros [-> Hp]. now apply IH.
Qed.

Lemma rstrip_app_space (s post : string) :
  all_chars isspace post = true -> rstrip (s +:+ post) = rstrip s.
Proof.
  intros Hp. induction s as [|c s IH]; simpl.
  - now apply rstrip_empty_iff.
  - now rewrite IH.
Qed.

Lemma strip_app_space (s post : string) :
  all_chars isspace post = true -> strip (s +:+ post) = strip s.
Proof.
  intros Hp. unfold strip. induction s as [|c s IH]; simpl.
  - apply lstrip_empty_iff in Hp. now rewrite Hp.
  - destruct (isspace c); [exact IH|].
    now apply (rstrip_app_space (String c s)).
Qed.

Lemma strip_padding (pre s post : string) :
  all_chars isspace pre = true -> all_chars isspace post = true ->
  strip (pre +:+ s +:+ post) = strip s.
Proof.
  intros Hpre Hpost. unfold strip at 1. rewrite lstrip_app_space by exact Hpre.
  now apply strip_app_space.
Qed.

(** X2.  The identity key ignores letter case and surrounding whitespace:
    two postings whose URLs, lower-cased, differ only by whitespace before
    and after have the same key. *)
Theorem key_ignores_case_and_padding (j1 j2 : Job) (pre post : string) :
  all_chars isspace pre = true -> all_chars isspace post = true ->
  lower (url j2) = pre +:+ lower (url j1) +:+ post ->
  key j2 = key j1.
Proof.
  intros Hpre Hpost Hurl.
  now rewrite !key_trim_lower, Hurl, strip_padding.
Qed.

Lemma key_ignores_case_and_padding_witness :
  key (mkJob "b" "Cook" "" "" "  HTTPS://Jobs.Example/Job/1 " None None None None)
  = key (mkJob "a" "Cook" "" "" "https://jobs.example/job/1" None None None None).
Proof.
  apply (key_ignores_case_and_padding _ _ "  " " "); reflexivity.
Defined.

(* ===================================================================== *)
(** * Comma-separated lists                                               *)
(* ===================================================================== *)

Lemma split_on_nonempty (c : ascii) (s : string) : split_on c s <> [].
Proof.
  induction s as [|d s IH]; simpl; [discriminate|].
  destruct (Ascii.eqb d c); [discriminate|].
  destruct (split_on c s); discriminate.
Qed.


Lemma join_cons_cons (sep p q : string) (l : list string) :
  join sep (p :: q :: l) = p +:+ sep +:+ join sep (q :: l).
Proof. reflexivity. Qed.

Lemma join_cons_char (sep : string) (d : ascii) (p : string) (ps : list string) :
  join sep (String d p :: ps) = String d (join sep (p :: ps)).
Proof. destruct ps; reflexivity. Qed.

(** Joining the pieces with the separator gives the text back. *)
Lemma join_split_on (c : ascii) (s : string) :
  join (String c EmptyString) (split_on c s) = s.
Proof.
  induction s as [|d s IH]; simpl; [reflexivity|].
  pose proof (split_on_nonempty c s) as Hne.
  destruct (split_on c s) as [|p ps]; [contradiction|].
  destruct (Ascii.eqb_spec d c) as [-> | Hd].
  - rewrite join_cons_cons, IH. reflexivity.
  - now rewrite join_cons_char, IH.
Qed.

Lemma split_on_one (c : ascii) (p : string) :
  all_chars (fun d => negb (Ascii.eqb d c)) p = true -> split_on c p = [p].
Proof.
  induction p as [|d p IH]; simpl; [reflexivity|].
  rewrite andb_true_iff. intros [Hd Hp].
  apply negb_true_iff in Hd. rewrite Hd. now rewrite (IH Hp).
Qed.

Lemma split_on_app (c : ascii) (p rest : string) :
  all_chars (fun d => negb (Ascii.eqb d c)) p = true ->
  split_on c (p +:+ String c rest) = p :: split_on c rest.
Proof.
  induction p as [|d p IH]; simpl.
  - intros _. now rewrite Ascii.eqb_refl.
  - rewrite andb_true_iff. intros [Hd Hp].
    apply negb_true_iff in Hd. rewrite Hd. now rewrite (IH Hp).
Qed.

(** Splitting undoes joining, for pieces without the separator. *)
Lemma split_on_join (c : ascii) (l : list string) :
  l <> [] ->
  Forall (fun p => all_chars (fun d => negb (Ascii.eqb d c)) p = true) l ->
  split_on c (join (String c EmptyString) l) = l.
Proof.
  induction l as [|p l IH]; [contradiction|]. intros _ Hl.
  apply Forall_cons in Hl as [Hp Hl].
  destruct l as [|q l]; [now apply split_on_one|].
  rewrite join_cons_cons. simpl. rewrite split_on_app by exact Hp.
  f_equal. now apply IH.
Qed.




(** X4.  Terms joined by commas are read back as they were, provided each
    is not empty, whitespace-normalized and free of commas. *)
Theorem csv_list_join (l : list string) :
  Forall csv_term l -> csv_list (join "," l) = l.
Proof.
  intros Hl. destruct l as [|t l]; [reflexivity|].
  unfold csv_list. rewrite split_on_join.
  - induction Hl as [|x xs (Hne & Hnorm & _) _ IH]; [reflexivity|].
    simpl. rewrite Hnorm. destruct (String.eqb_spec x ""); [contradiction|].
    simpl. now rewrite Hnorm, IH.
  - discriminate.
  - eapply Forall_impl; [exact Hl|]. now intros x (_ & _ & Hx).
Qed.

Lemma csv_list_join_witness :
  csv_list (join "," ["cook"; "line cook"; "varasto"]) = ["cook"; "line cook"; "varasto"].
Proof.
  apply (csv_list_join ["cook"; "line cook"; "varasto"]).
  repeat constructor; discriminate.
Defined.

(* ===================================================================== *)
(** * Escaping for HTML                                                   *)
(* ===================================================================== *)

Lemma replace_char_app (old : ascii) (new s t : string) :
  replace_char old new (s +:+ t)
  = replace_char old new s +:+ replace_char old new t.
Proof.
  induction s as [|c s IH]; simpl; [reflexivity|].
  destruct (Ascii.eqb c old); simpl; rewrite IH; [|reflexivity].
  generalize (replace_char old new s) (replace_char old new t). intros a b. clear IH.
  induction new as [|n new IHn]; simpl; [reflexivity | now rewrite IHn].
Qed.

(** The five replacements in a row escape each character on its own: the
    ampersands of the entities are not escaped again. *)
Lemma esc_html_each (s : string) :
  esc_html (Some s) = esc_each s.
Proof.
  assert (forall s, replace_char "'" "&#39;"
            (replace_char dquote_char "&quot;"
               (replace_char ">" "&gt;"
                  (replace_char "<" "&lt;" (replace_char "&" "&amp;" s))))
          = esc_each s) as Hall.
  { clear s. induction s as [|c s IH]; [reflexivity|].
    cbn [esc_each]. rewrite <- IH.
    destruct c as [[] [] [] [] [] [] [] []];
      cbn -[String.append]; rewrite ?replace_char_app; reflexivity. }
  unfold esc_html, str_or.
  destruct (String.eqb_spec s "") as [-> | _]; [reflexivity | apply Hall].
Qed.

Lemma all_chars_esc_char (c : ascii) :
  all_chars (fun c => negb (is_quote_or_angle c)) (esc_char c) = true.
Proof. destruct c as [[] [] [] [] [] [] [] []]; reflexivity. Qed.

Lemma esc_each_plain (s : string) :
  all_chars (fun c => negb (is_markup c)) s = true -> esc_each s = s.
Proof.
  induction s as [|c r IH]; simpl; [reflexivity|].
  rewrite andb_true_iff, negb_true_iff. intros [Hc Hr]. rewrite (IH Hr).
  unfold is_markup in Hc. unfold esc_char.
  repeat (apply orb_false_iff in Hc as [Hc ?]).
  now repeat match goal with H : Ascii.eqb _ _ = false |- _ => rewrite H; clear H end.
Qed.

(** X5.  [esc_html] escapes each character on its own (an ampersand it
    wrote itself is not escaped again); its result holds no angle bracket
    and no quote of either kind; and a text without ampersand, angle
    bracket or quote is left as it is. *)
Theorem esc_html_no_markup (s : option string) :
  esc_html s = esc_each (str_or s "")
  /\ all_chars (fun c => negb (is_quote_or_angle c)) (esc_html s) = true
  /\ (all_chars (fun c => negb (is_markup c)) (str_or s "") = true ->
      esc_html s = str_or s "").
Proof.
  assert (esc_html s = esc_each (str_or s "")) as Heach.
  { destruct s as [s|]; [|reflexivity]. rewrite esc_html_each.
    unfold str_or. now destruct (String.eqb_spec s "") as [-> | _]. }
  split; [exact Heach|]. rewrite Heach. clear Heach.
  split; [|apply esc_each_plain].
  induction (str_or s "") as [|c r IH]; [reflexivity|].
  cbn [esc_each]. now rewrite all_chars_app, all_chars_esc_char, IH.
Qed.

Lemma esc_each_injective (s t : string) :
  esc_each s = esc_each t -> s = t.
Proof.
  revert t. induction s as [|c s IH]; intros [|d t] H.
  - reflexivity.
  - exfalso. cbn [esc_each] in H. unfold esc_char in H.
    repeat (destruct (Ascii.eqb d _); [discriminate H|]). discriminate H.
  - exfalso. cbn [esc_each] in H. unfold esc_char in H.
    repeat (destruct (Ascii.eqb c _); [discriminate H|]). discriminate H.
  - cbn [esc_each] in H. unfold esc_char in H.
    destruct (Ascii.eqb_spec c "&") as [-> | Hc1];
    [|destruct (Ascii.eqb_spec c "<") as [-> | Hc2];
    [|destruct (Ascii.eqb_spec c ">") as [-> | Hc3];
    [|destruct (Ascii.eqb_spec c dquote_char) as [-> | Hc4];
    [|destruct (Ascii.eqb_spec c "'") as [-> | Hc5]]]]];
    (destruct (Ascii.eqb_spec d "&") as [-> | Hd1];
    [|destruct (Ascii.eqb_spec d "<") as [-> | Hd2];
    [|destruct (Ascii.eqb_spec d ">") as [-> | Hd3];
    [|destruct (Ascii.eqb_spec d dquote_char) as [-> | Hd4];
    [|destruct (Ascii.eqb_spec d "'") as [-> | Hd5]]]]]);
    simpl in H; try discriminate H;
    try (injection H as H; f_equal; now apply IH);
    try (injection H as Hcd _; congruence).
    injection H as -> H. f_equal. now apply IH.
Qed.

(** X6.  Escaping loses nothing: two texts with the same escaped form are
    the same text. *)
Theorem esc_html_injective (s t : string) :
  esc_html (Some s) = esc_html (Some t) -> s = t.
Proof. rewrite !esc_html_each. apply esc_each_injective. Qed.

Lemma esc_html_injective_witness :
  esc_html (Some "a<b & c") = "a&lt;b &amp; c" /\ "a<b & c" = "a<b & c".
Proof.
  split; [reflexivity|].
  apply (esc_html_injective "a<b & c" "a<b & c"). reflexivity.
Defined.

(* ===================================================================== *)
(** * The sort: a total order on the keys                                 *)
(* ===================================================================== *)

Lemma compare_lt_trans (a b c : string) :
  String.compare a b = Lt -> String.compare b c = Lt -> String.compare a c = Lt.
Proof.
  intros Hab Hbc.
  apply OrderedTypeEx.String_as_OT.cmp_lt.
  apply OrderedTypeEx.String_as_OT.lt_trans with b;
    now apply OrderedTypeEx.String_as_OT.cmp_lt.
Qed.

Lemma compare_gt_lt (a b : string) :
  String.compare a b = Gt -> String.compare b a = Lt.
Proof. intros H. rewrite String.compare_antisym, H. reflexivity. Qed.

(** Of three strings with [a < c], the middle one is above [a] or below [c]. *)
Lemma compare_lt_between (a b c : string) :
  String.compare a c = Lt ->
  String.compare a b = Lt \/ String.compare b c = Lt.
Proof.
  intros Hac. destruct (String.compare a b) eqn:Hab.
  - apply String.compare_eq_iff in Hab as ->. now right.
  - now left.
  - right. apply compare_gt_lt in Hab. now apply compare_lt_trans with a.
Qed.

Lemma pair_ltb_between (x y z : string * string) :
  pair_ltb x z = true -> pair_ltb x y = true \/ pair_ltb y z = true.
Proof.
  unfold pair_ltb, String.ltb. intros Hxz.
  destruct (String.compare (fst x) (fst z)) eqn:Hf; [| |discriminate].
  - apply String.compare_eq_iff in Hf.
    destruct (String.compare (snd x) (snd z)) eqn:Hs; try discriminate.
    destruct (String.compare (fst x) (fst y)) eqn:Hxy.
    + apply String.compare_eq_iff in Hxy. rewrite <- Hxy, Hf.
      replace (String.compare (fst z) (fst z)) with Eq
        by (symmetry; now apply (proj2 (OrderedTypeEx.String_as_OT.cmp_eq _ _))).
      destruct (compare_lt_between _ (snd y) _ Hs) as [-> | ->]; auto.
    + now left.
    + right. apply compare_gt_lt in Hxy. rewrite <- Hf, Hxy. reflexivity.
  - destruct (String.compare (fst x) (fst y)) eqn:Hxy.
    + apply String.compare_eq_iff in Hxy. right. rewrite <- Hxy, Hf. reflexivity.
    + now left.
    + right. apply compare_gt_lt in Hxy.
      now rewrite (compare_lt_trans _ _ _ Hxy Hf).
Qed.

Lemma not_before_trans (a b c : Job) :
  not_before a b -> not_before b c -> not_before a c.
Proof.
  unfold not_before. intros Hab Hbc.
  destruct (pair_ltb (sort_key a) (sort_key c)) eqn:Hac; [|reflexivity].
  destruct (pair_ltb_between _ (sort_key b) _ Hac); congruence.
Qed.

Lemma sort_jobs_strongly_sorted (jobs : list Job) :
  StronglySorted not_before (sort_jobs jobs).
Proof.
  apply Sorted_StronglySorted; [|apply sort_jobs_sorted].
  intros a b c. apply not_before_trans.
Qed.

Lemma strongly_sorted_stands_before {A} (R : A -> A -> Prop) (l : list A) (a b : A) :
  StronglySorted R l ->
  (exists l1 l2 l3, l = l1 ++ a :: l2 ++ b :: l3) -> R a b.
Proof.
  intros Hs (l1 & l2 & l3 & ->).
  induction l1 as [|x l1 IH]; simpl in Hs; apply StronglySorted_inv in Hs as [Hs Hall].
  - rewrite Forall_forall in Hall. apply Hall. set_solver.
  - now apply IH.
Qed.

(** X7.  The sort rearranges the postings and loses none; whenever one
    posting stands before another in the result, its key (date, else
    [0000-00-00], then source) is not the smaller one; and postings with
    the same key stay in the order they came in. *)
Theorem sort_jobs_descending_stable (jobs : list Job) :
  sort_jobs jobs ≡ₚ jobs
  /\ (forall a b, stands_before a b (sort_jobs jobs) ->
        pair_ltb (sort_key a) (sort_key b) = false)
  /\ (forall k, List.filter (fun j => bool_decide (sort_key j = k)) (sort_jobs jobs)
                = List.filter (fun j => bool_decide (sort_key j = k)) jobs).
Proof.
  split; [apply sort_jobs_perm|]. split; [|intros k; apply sort_jobs_stable].
  intros a b Hab.
  exact (strongly_sorted_stands_before not_before _ a b
           (sort_jobs_strongly_sorted jobs) Hab).
Qed.

(** X8.  A posting without a date is never listed before a posting whose
    date is above [0000-00-00], which every ISO date of a year from 0001
    on is. *)
Theorem sort_undated_after_dated (jobs : list Job) (a b : Job) (d : string) :
  truthy (posted_dt b) = false ->
  posted_dt a = Some d -> String.ltb "0000-00-00" d = true ->
  ~ stands_before b a (sort_jobs jobs).
Proof.
  intros Hb Ha Hd Hba.
  pose proof (strongly_sorted_stands_before not_before _ b a
                (sort_jobs_strongly_sorted jobs) Hba) as Hnb.
  unfold not_before, sort_key, pair_ltb in Hnb. simpl in Hnb.
  assert (str_or (posted_dt b) "0000-00-00" = "0000-00-00") as Hkb.
  { unfold str_or, truthy in *. destruct (posted_dt b) as [s|]; [|reflexivity].
    now destruct (String.eqb s ""). }
  assert (str_or (posted_dt a) "0000-00-00" = d) as Hka.
  { rewrite Ha. unfold str_or.
    destruct (String.eqb_spec d "") as [-> | _]; [discriminate Hd | reflexivity]. }
  rewrite Hkb, Hka in Hnb. unfold String.ltb in Hd.
  destruct (String.compare "0000-00-00" d); discriminate.
Qed.

Lemma sort_undated_after_dated_witness :
  sort_jobs [job_undated; job_A; job_B] = [job_A; job_B; job_undated]
  /\ ~ stands_before job_undated job_A (sort_jobs [job_undated; job_A; job_B]).
Proof.
  split; [reflexivity|].
  apply (sort_undated_after_dated [job_undated; job_A; job_B] job_A job_undated
           "2024-05-01"); reflexivity.
Defined.

(* ===================================================================== *)
(** * Deduplication in [main]: where the surviving postings stand         *)
(* ===================================================================== *)

Lemma dict_set_fresh {V} (k : string) (v : V) (d : list (string * V)) :
  k ∉ map fst d -> dict_set k v d = d ++ [(k, v)].
Proof.
  induction d as [|[k0 v0] d IH]; simpl; intros Hk; [reflexivity|].
  destruct (String.eqb_spec k0 k) as [-> | Hne]; [set_solver|].
  rewrite IH; [reflexivity | set_solver].
Qed.

Lemma first_wins_snoc_keys (l : list Job) (j : Job) :
  map key (first_wins (l ++ [j]))
  = if bool_decide (key j ∈ map key (first_wins l))
    then map key (first_wins l) else map key (first_wins l) ++ [key j].
Proof.
  unfold first_wins. rewrite first_wins_from_app. simpl.
  pose proof (first_wins_from_keys ∅ l) as Hkeys.
  assert (key j ∈ map key (first_wins_from ∅ l) <-> key j ∈ map key l) as Hiff.
  { set_unfold. specialize (Hkeys (key j)). tauto. }
  destruct (decide (key j ∈ map key l)) as [Hin | Hnin].
  - rewrite (bool_decide_true (key j ∈ list_to_set (map key l) ∪ ∅)) by set_solver.
    rewrite bool_decide_true by tauto. now rewrite app_nil_r.
  - rewrite (bool_decide_false (key j ∈ list_to_set (map key l) ∪ ∅)) by set_solver.
    rewrite bool_decide_false by tauto. now rewrite map_app.
Qed.

Lemma dedupe_first_wins_keys (l : list Job) :
  map key (dedupe l) = map key (first_wins l).
Proof.
  rewrite dedupe_keys.
  induction l as [|j l IH] using rev_ind; [reflexivity|].
  now rewrite dedup_dict_snoc, dict_set_keys, first_wins_snoc_keys, IH.
Qed.

Lemma dedupe_distinct (l : list Job) : NoDup (map key l) -> dedupe l = l.
Proof.
  induction l as [|j l IH] using rev_ind; [reflexivity|].
  rewrite map_app, NoDup_app. intros (Hl & Hj & _).
  unfold dedupe in *. rewrite dedup_dict_snoc, dict_set_fresh.
  - now rewrite map_app, IH.
  - fold (dedupe l). rewrite <- dedupe_keys. fold (dedupe l) in IH.
    rewrite IH by exact Hl. intros Hin. apply (Hj _ Hin). set_solver.
Qed.

Lemma dedupe_length (l : list Job) : (length (dedupe l) <= length l)%nat.
Proof.
  rewrite <- (length_map key (dedupe l)), dedupe_first_wins_keys, length_map.
  unfold first_wins. generalize (∅ : gset string).
  induction l as [|j l IH]; intros K; simpl; [lia|].
  case_bool_decide; simpl;
    [specialize (IH K) | specialize (IH ({[key j]} ∪ K))]; lia.
Qed.

(** X9.  Deduplication keeps, for each identity key, the position of the
    first posting that has it (the keys of the result are those of a
    first-wins pass, in the same order); it changes nothing when all keys
    differ, so running it twice is running it once; and it never adds a
    posting. *)
Theorem dedupe_positions (all_jobs : list Job) :
  map key (dedupe all_jobs) = map key (first_wins all_jobs)
  /\ (NoDup (map key all_jobs) -> dedupe all_jobs = all_jobs)
  /\ dedupe (dedupe all_jobs) = dedupe all_jobs
  /\ (length (dedupe all_jobs) <= length all_jobs)%nat.
Proof.
  split; [apply dedupe_first_wins_keys|]. split; [apply dedupe_distinct|].
  split.
  - apply dedupe_distinct. rewrite dedupe_keys. apply dedup_dict_NoDup.
  - apply dedupe_length.
Qed.

(* ===================================================================== *)
(** * The filters of [main]                                               *)
(* ===================================================================== *)

Lemma List_filter_sublist {A} (f : A -> bool) (l : list A) :
  List.filter f l `sublist_of` l.
Proof.
  induction l as [|x l IH]; simpl; [constructor|].
  destruct (f x); now constructor.
Qed.

Lemma List_filter_idem {A} (f : A -> bool) (l : list A) :
  List.filter f (List.filter f l) = List.filter f l.
Proof.
  induction l as [|x l IH]; simpl; [reflexivity|].
  destruct (f x) eqn:Hx; simpl; [|exact IH]. now rewrite Hx, IH.
Qed.

Lemma filter_jobs_sublist (jobs : list Job) (keywords locations : list string) :
  filter_jobs jobs keywords locations `sublist_of` jobs.
Proof.
  unfold filter_jobs.
  destruct keywords, locations; try reflexivity; apply List_filter_sublist.
Qed.



Lemma recent_undated (cutoff : string) (j : Job) :
  truthy (posted_dt j) = false -> recent cutoff j = true.
Proof. unfold recent. now intros ->. Qed.

Lemma no_dated_all_recent (cutoff : string) (jobs : list Job) :
  existsb (fun j => truthy (posted_dt j)) jobs = false ->
  forall j, j ∈ jobs -> recent cutoff j = true.
Proof.
  intros Hex j Hj. apply recent_undated.
  destruct (truthy (posted_dt j)) eqn:Ht; [|reflexivity].
  assert (existsb (fun j => truthy (posted_dt j)) jobs = true) as Hyes.
  { apply existsb_exists. exists j. split; [now apply list_elem_of_In | exact Ht]. }
  congruence.
Qed.

Lemma date_filter_sublist (days : Z) (cutoff : string) (jobs : list Job) :
  date_filter days cutoff jobs `sublist_of` jobs.
Proof.
  unfold date_filter.
  destruct (negb (days =? 0) && existsb _ jobs); [apply List_filter_sublist | reflexivity].
Qed.

Lemma date_filter_recent (days : Z) (cutoff : string) (jobs : list Job) (j : Job) :
  days <> 0 -> j ∈ date_filter days cutoff jobs -> recent cutoff j = true.
Proof.
  intros Hd. unfold date_filter.
  destruct (Z.eqb_spec days 0) as [? | _]; [contradiction|]. simpl.
  destruct (existsb _ jobs) eqn:Hex.
  - intros Hj. apply list_elem_of_In, filter_In in Hj as [_ Hj]. exact Hj.
  - now apply no_dated_all_recent.
Qed.

(** X11.  The date filter only removes postings; it removes none when the
    number of days is 0; it never removes a posting without a date; when
    the number of days is not 0 every posting it leaves has no date or a
    date not before the cutoff; and applying it twice is applying it
    once. *)
Theorem date_filter_keeps (days : Z) (cutoff : string) (jobs : list Job) :
  date_filter days cutoff jobs `sublist_of` jobs
  /\ (days = 0 -> date_filter days cutoff jobs = jobs)
  /\ (forall j, j ∈ jobs -> truthy (posted_dt j) = false ->
        j ∈ date_filter days cutoff jobs)
  /\ (forall j, j ∈ jobs -> recent cutoff j = true ->
        j ∈ date_filter days cutoff jobs)
  /\ (days <> 0 -> forall j, j ∈ date_filter days cutoff jobs -> recent cutoff j = true)
  /\ date_filter days cutoff (date_filter days cutoff jobs)
     = date_filter days cutoff jobs.
Proof.
  assert (forall j, j ∈ jobs -> recent cutoff j = true ->
            j ∈ date_filter days cutoff jobs) as Hkeep.
  { intros j Hj Hr. unfold date_filter.
    destruct (negb (days =? 0) && existsb _ jobs); [|exact Hj].
    apply list_elem_of_In, filter_In. split; [now apply list_elem_of_In | exact Hr]. }
  split; [apply date_filter_sublist|]. split; [|split; [|split; [|split]]].
  - intros ->. reflexivity.
  - intros j Hj Hu. apply Hkeep; [exact Hj | now apply recent_undated].
  - exact Hkeep.
  - intros Hd j. now apply date_filter_recent.
  - unfold date_filter at 2 3.
    destruct (negb (days =? 0) && existsb _ jobs) eqn:Hc.
    + unfold date_filter.
      destruct (negb (days =? 0) && existsb _ (List.filter _ jobs));
        [apply List_filter_idem | reflexivity].
    + unfold date_filter. now rewrite Hc.
Qed.




(* ===================================================================== *)
(** * The steps of [main] together                                        *)
(* ===================================================================== *)


(* ===================================================================== *)
(** * More on what the extractor returns                                  *)
(* ===================================================================== *)

Section ExtractorMore.
Context {L : Libs}.

Lemma truthy_str_or (o : option string) :
  truthy o = true -> str_or o "" <> "".
Proof. intros H. apply truthy_Some in H as (s & _ & Hs & ->). exact Hs. Qed.

Lemma card_job_location (selectors : Selectors) (source_name : string)
    (default_location : option string) (card : Tag) (j : Job) :
  card_job selectors source_name default_location card = Ok (Some j) ->
  truthy default_location = true -> location j <> "".
Proof.
  unfold card_job. intros H Hd.
  inv_bind H as t Ht. inv_bind H as c Hc. inv_bind H as loc Hloc.
  inv_bind H as url0 Hurl0. inv_bind H as url1 Hurl1. inv_bind H as p Hp.
  inv_bind H as sa Hsa. inv_bind H as sn Hsn.
  destruct (negb (String.eqb t "") && truthy url1); simpl in H; [|discriminate].
  injection H as <-. simpl.
  destruct (String.eqb_spec loc "") as [_ | Hne]; [now apply truthy_str_or | exact Hne].
Qed.

Lemma extract_cards_Forall (P : Job -> Prop) (selectors : Selectors)
    (source_name : string) (default_location : option string) :
  (forall card j,
     card_job selectors source_name default_location card = Ok (Some j) -> P j) ->
  forall cards out out',
    extract_cards selectors source_name default_location cards out = Ok out' ->
    exists new, out' = out ++ new /\ Forall P new.
Proof.
  intros HP cards. induction cards as [|card cards IH]; intros out out'; simpl.
  - intros [= <-]. exists []. now rewrite app_nil_r.
  - intros H. inv_bind H as oj Hoj. apply IH in H as (new & -> & Hnew).
    destruct oj as [j|].
    + exists (j :: new). rewrite <- app_assoc. split; [reflexivity|].
      constructor; [exact (HP _ _ Hoj) | exact Hnew].
    + now exists new.
Qed.

Lemma structured_pass_location (soup : Tag) (selectors : Selectors)
    (source_name : string) (default_location : option string) (out : list Job) :
  structured_pass soup selectors source_name default_location = Ok out ->
  Forall (fun j => truthy default_location = true -> location j <> "") out.
Proof.
  unfold structured_pass. destruct (truthy (sel_container selectors)).
  - intros H. inv_bind H as cards Hcards.
    apply (extract_cards_Forall
             (fun j => truthy default_location = true -> location j <> "")) in H
      as (new & -> & Hnew); [exact Hnew|].
    intros card j. apply card_job_location.
  - intros [= <-]. constructor.
Qed.

Lemma extract_jobs_sourced_titled (html : string) (rules : SiteCfg)
    (source_name : string) (default_location : option string) (jobs : list Job) :
  extract_jobs_from_html html rules source_name default_location = Ok jobs ->
  Forall (fun j => source j = source_name /\ titled j) jobs.
Proof.
  unfold extract_jobs_from_html. intros H. inv_bind H as out Hout.
  assert (Forall (fun j => source j = source_name /\ titled j) out) as Hstruct.
  { eapply Forall_impl; [exact (structured_pass_fields _ _ _ _ _ Hout)|].
    now intros j (? & _ & ?). }
  unfold fallback_pass in H.
  destruct (truthy (sel_link_pattern (selectors rules))).
  - inv_bind H as pat Hpat. inv_bind H as anchors Hanchors.
    apply harvest_links_spec in H as (fb & -> & Hfb & _ & _).
    apply Forall_app. split; [exact Hstruct|].
    eapply Forall_impl; [exact Hfb|].
    intros j (a & href & _ & _ & _ & _ & _ & ->).
    split; [reflexivity | apply fallback_job_titled].
  - now injection H as <-.
Qed.

(** X14.  Every posting the extractor returns carries the given source
    name, and a location whenever a default location is given.  The
    postings of the fallback pass have pairwise different urls, none of
    them the url of a posting of the structured pass, and besides source,
    title, url and the default location they carry nothing: no company, no
    date, no salary and an empty snippet. *)
Theorem extracted_postings_attributed (html : string) (rules : SiteCfg)
    (source_name : string) (default_location : option string) (jobs : list Job) :
  extract_jobs_from_html html rules source_name default_location = Ok jobs ->
  Forall (fun j => source j = source_name
                   /\ (truthy default_location = true -> location j <> "")) jobs
  /\ exists structured fallback,
       jobs = structured ++ fallback
       /\ structured_pass (BeautifulSoup html) (selectors rules) source_name
            default_location = Ok structured
       /\ NoDup (map url fallback)
       /\ Forall (fun j => url j ∉ map url structured) fallback
       /\ Forall (fun j => company j = "" /\ location j = str_or default_location ""
                           /\ posted j = None /\ posted_dt j = None
                           /\ salary j = None /\ snippet j = Some "") fallback.
Proof.
  unfold extract_jobs_from_html. intros H. inv_bind H as out Hout.
  pose proof (structured_pass_fields _ _ _ _ _ Hout) as Hf.
  pose proof (structured_pass_location _ _ _ _ _ Hout) as Hl.
  assert (Forall (fun j => source j = source_name
                   /\ (truthy default_location = true -> location j <> "")) out)
    as Hstruct.
  { rewrite Forall_forall in *. intros j Hj. split; [apply Hf, Hj | apply Hl, Hj]. }
  unfold fallback_pass in H.
  destruct (truthy (sel_link_pattern (selectors rules))).
  - inv_bind H as pat Hpat. inv_bind H as anchors Hanchors.
    apply harvest_links_spec in H as (fb & -> & Hfb & Hfresh & Hnd).
    assert (Forall (fun j => exists a u, j = fallback_job source_name default_location a u)
              fb) as Hshape.
    { eapply Forall_impl; [exact Hfb|].
      intros j (a & href & _ & _ & _ & _ & _ & Hj). now exists a, (url j). }
    split.
    + apply Forall_app. split; [exact Hstruct|].
      eapply Forall_impl; [exact Hshape|]. intros j (a & u & ->). simpl.
      split; [reflexivity | apply truthy_str_or].
    + exists out, fb. repeat split; try assumption.
      eapply Forall_impl; [exact Hshape|]. intros j (a & u & ->). now simpl.
  - injection H as <-. split; [exact Hstruct|].
    exists out, []. rewrite app_nil_r. repeat split; try assumption; constructor.
Qed.

End ExtractorMore.

Section OnPagesMore.
Import Toy Pages.

(** The listing page: every posting carries the source name. *)
Lemma extracted_postings_attributed_witness :
  Forall (fun j => source j = "site"
                   /\ (truthy (@None string) = true -> location j <> ""))
    [job_cook; job_cook_copy; job_cleaner].
Proof.
  destruct (extracted_postings_attributed (L := example_libs) html_listing
              (rules_of sel_listing) "site" None
              [job_cook; job_cook_copy; job_cleaner]) as [H _];
    [reflexivity | exact H].
Defined.

End OnPagesMore.

(* ===================================================================== *)
(** * More on crawling: idle crawls, budgets, and what the log holds      *)
(* ===================================================================== *)

Section CrawlMore.
Context {L : Libs} {Wd : World}.

Lemma walk_loop_cond_false (fuel : nat) (name : string) (cfg : SiteCfg)
    (max_items : Z) (default_loc : option string) (url : option string)
    (pages_seen : Z) (visited : gset string) (st : CrawlState) :
  loop_cond cfg max_items url pages_seen st = false ->
  walk fuel name cfg max_items default_loc url pages_seen visited st = (Finished, st).
Proof. intros Hc. destruct fuel; cbn [walk]; now rewrite Hc. Qed.

(** X15.  A crawl makes no request and returns no posting when the site
    has no start page (also when its [pages] list is empty although a
    [url] is given), when [max_pages] is not positive, or when the cap is
    not positive. *)
Theorem crawl_site_idle (name : string) (cfg : SiteCfg) (max_items : Z) (w : W) :
  build_pages cfg = [] \/ max_pages cfg <= 0 \/ max_items <= 0 ->
  (cfg_pages cfg = Some [] -> build_pages cfg = [])
  /\ crawl_site name cfg max_items w = (Finished, mkCrawlState [] ∅ w []).
Proof.
  intros H. split.
  { intros Hp. unfold build_pages. now rewrite Hp. }
  unfold crawl_site. destruct H as [-> | H]; [reflexivity|].
  induction (build_pages cfg) as [|[start_url default_loc] pages IH];
    cbn [crawl_pages]; [reflexivity|].
  rewrite walk_loop_cond_false; [exact IH|].
  unfold loop_cond. rewrite !andb_false_iff.
  destruct H as [H | H].
  - left. right. apply Z.ltb_ge. lia.
  - right. apply Z.ltb_ge. simpl. lia.
Qed.

(** X16.  A page that answers with an empty body ends the walk of its
    start URL as a failed request does: the request is made, nothing is
    extracted, no error is raised. *)
Theorem empty_body_ends_walk (name : string) (cfg : SiteCfg) (max_items : Z)
    (default_loc : option string) (fuel : nat) (url : option string)
    (pages_seen : Z) (visited : gset string) (st : CrawlState)
    (r : Response) (w1 : W) :
  loop_cond cfg max_items url pages_seen st = true ->
  str_or url "" ∉ visited ->
  requests_get (str_or url "") (world st) = (Ok r, w1) ->
  text r = "" ->
  walk (Datatypes.S fuel) name cfg max_items default_loc url pages_seen visited st
  = (Finished, log (EvFetch (str_or url "")) (set_world w1 st)).
Proof.
  intros Hc Hv Hget Hr. cbn [walk]. rewrite Hc. unfold walk_body.
  rewrite bool_decide_false by exact Hv.
  unfold fetch_url. rewrite Hget, Hr.
  now destruct (status_code r =? 200).
Qed.

Lemma sleeps_app (a b : list Event) : sleeps (a ++ b) = (sleeps a + sleeps b)%nat.
Proof. unfold sleeps. now rewrite omap_app, length_app. Qed.

Lemma sleeps_appends (new : list Job) : sleeps (map EvAppend new) = 0%nat.
Proof. induction new as [|j new IH]; simpl; [reflexivity | exact IH]. Qed.

Lemma orderly_nil (name : string) (d : Q) : orderly name d [].
Proof. repeat split; constructor. Qed.

Lemma orderly_app (name : string) (d : Q) (a b : list Event) :
  orderly name d a -> orderly name d b -> orderly name d (a ++ b).
Proof.
  intros (Ha1 & Ha2 & Ha3) (Hb1 & Hb2 & Hb3). split; [|split].
  - rewrite extracted_app. now apply Forall_app.
  - rewrite sleeps_app, extractions_app. lia.
  - now apply Forall_app.
Qed.

Lemma orderly_appends (name : string) (d : Q) (new : list Job) :
  orderly name d (map EvAppend new).
Proof.
  split; [|split].
  - rewrite extracted_appends. constructor.
  - rewrite sleeps_appends. lia.
  - induction new; simpl; now constructor.
Qed.

(** What one turn of the loop adds to the log. *)
Lemma walk_body_orderly (name : string) (cfg : SiteCfg) (max_items : Z)
    (default_loc : option string) (url : option string) (pages_seen : Z)
    (visited : gset string) (st : CrawlState) :
  exists new,
    orderly name (delay cfg) new
    /\ match walk_body name cfg max_items default_loc url pages_seen visited st with
       | Leave _ st' | Again _ _ _ st' => trace st' = trace st ++ new
       end.
Proof.
  unfold walk_body.
  case_bool_decide as Hv.
  { exists []. split; [apply orderly_nil | now rewrite app_nil_r]. }
  destruct (fetch_url (str_or url "") (world st)) as [html w1].
  set (st1 := log (EvFetch (str_or url "")) (set_world w1 st)).
  assert (orderly name (delay cfg) [EvFetch (str_or url "")]) as Hfetch.
  { split; [constructor | split; [cbn; lia | now repeat constructor]]. }
  destruct (negb (truthy html)); [now exists [EvFetch (str_or url "")]|].
  destruct (extract_jobs_from_html (str_or html "") cfg name default_loc)
    as [jobs|e] eqn:Hex; [|now exists [EvFetch (str_or url "")]].
  set (st2 := add_jobs max_items jobs (log (EvExtract jobs) st1)).
  pose proof (add_jobs_frame max_items jobs (log (EvExtract jobs) st1))
    as (_ & added & _ & Ht & _).
  fold st2 in Ht. simpl in Ht. rewrite <- !app_assoc in Ht. simpl in Ht.
  assert (orderly name (delay cfg)
            (EvFetch (str_or url "") :: EvExtract jobs :: map EvAppend added)) as H2.
  { apply (orderly_app _ _ [EvFetch (str_or url ""); EvExtract jobs]);
      [|apply orderly_appends].
    split; [|split; [cbn; lia | now repeat constructor]].
    unfold extracted. simpl. rewrite app_nil_r.
    exact (extract_jobs_sourced_titled _ _ _ _ _ Hex). }
  destruct (max_items <=? Z.of_nat (length (results st2)));
    [now exists (EvFetch (str_or url "") :: EvExtract jobs :: map EvAppend added)|].
  destruct (find_next_url (BeautifulSoup (str_or html "")) (selectors cfg))
    as [next_url|e];
    [|now exists (EvFetch (str_or url "") :: EvExtract jobs :: map EvAppend added)].
  destruct (truthy next_url);
    [|now exists (EvFetch (str_or url "") :: EvExtract jobs :: map EvAppend added)].
  destruct (time_sleep (delay cfg) (world st2)) as [[[]|e] w3];
    [|now exists (EvFetch (str_or url "") :: EvExtract jobs :: map EvAppend added)].
  exists ((EvFetch (str_or url "") :: EvExtract jobs :: map EvAppend added)
          ++ [EvSleep (delay cfg)]).
  split.
  - destruct H2 as (Ha & Hb & Hc). split; [|split].
    + rewrite extracted_app. simpl. now rewrite app_nil_r.
    + rewrite sleeps_app, extractions_app.
      change (sleeps (EvFetch (str_or url "") :: EvExtract jobs :: map EvAppend added))
        with (sleeps (map EvAppend added)).
      change (extractions (EvFetch (str_or url "") :: EvExtract jobs
                             :: map EvAppend added))
        with (Datatypes.S (extractions (map EvAppend added))).
      rewrite sleeps_appends. cbn. lia.
    + apply Forall_app. split; [exact Hc | now repeat constructor].
  - unfold log. simpl. rewrite Ht. now rewrite <- !app_assoc.
Qed.

Lemma walk_orderly (name : string) (cfg : SiteCfg) (max_items : Z)
    (default_loc : option string) (fuel : nat) (url : option string)
    (pages_seen : Z) (visited : gset string) (st : CrawlState) :
  exists new,
    orderly name (delay cfg) new
    /\ trace (snd (walk fuel name cfg max_items default_loc url pages_seen visited st))
       = trace st ++ new.
Proof.
  revert url pages_seen visited st.
  induction fuel as [|fuel IH]; intros url pages_seen visited st; cbn [walk].
  - exists []. split; [apply orderly_nil|]. rewrite app_nil_r.
    now destruct (loop_cond cfg max_items url pages_seen st).
  - destruct (loop_cond cfg max_items url pages_seen st);
      [|exists []; split; [apply orderly_nil | now rewrite app_nil_r]].
    destruct (walk_body_orderly name cfg max_items default_loc url pages_seen
                visited st) as (new & Hnew & Ht).
    destruct (walk_body name cfg max_items default_loc url pages_seen visited st)
      as [o st' | url' pages_seen' visited' st']; simpl.
    + now exists new.
    + destruct (IH url' pages_seen' visited' st') as (new' & Hnew' & Ht').
      exists (new ++ new'). split; [now apply orderly_app|].
      now rewrite Ht', Ht, <- app_assoc.
Qed.

(** What the crawl of a list of start pages adds to the log. *)
Lemma crawl_pages_log (name : string) (cfg : SiteCfg) (max_items : Z)
    (pages : list (string * option string)) (st : CrawlState) :
  exists new,
    trace (snd (crawl_pages name cfg max_items pages st)) = trace st ++ new
    /\ orderly name (delay cfg) new
    /\ (length (fetched new) <= length pages * Z.to_nat (max_pages cfg))%nat
    /\ (extractions new <= length (fetched new))%nat.
Proof.
  revert st. induction pages as [|[start_url default_loc] pages IH]; intros st;
    cbn [crawl_pages].
  - exists []. rewrite app_nil_r. split; [reflexivity|].
    split; [apply orderly_nil | split; cbn; lia].
  - pose proof (walk_run name cfg max_items default_loc (Z.to_nat (max_pages cfg))
                  (Some start_url) 0 ∅ st) as [_ (new & Ht & Hf & He & _)].
    destruct (walk_orderly name cfg max_items default_loc (Z.to_nat (max_pages cfg))
                (Some start_url) 0 ∅ st) as (new0 & Hord & Ht0).
    rewrite Ht in Ht0. apply app_inv_head in Ht0 as <-.
    rewrite Z.sub_0_r in Hf.
    destruct (walk (Z.to_nat (max_pages cfg)) name cfg max_items default_loc
                (Some start_url) 0 ∅ st) as [o st'] eqn:Hw.
    simpl in Ht.
    assert (exists new1, trace st' = trace st ++ new1
              /\ orderly name (delay cfg) new1
              /\ (length (fetched new1)
                  <= length ((start_url, default_loc) :: pages)
                     * Z.to_nat (max_pages cfg))%nat
              /\ (extractions new1 <= length (fetched new1))%nat) as Hstop.
    { exists new. split; [exact Ht|]. split; [exact Hord|]. split; [|exact He].
      simpl. lia. }
    destruct o; [|exact Hstop | exact Hstop].
    destruct (IH st') as (new' & Ht' & Hord' & Hf' & He').
    exists (new ++ new'). rewrite Ht', Ht, <- app_assoc.
    split; [reflexivity|]. split; [now apply orderly_app|].
    rewrite fetched_app, extractions_app, length_app. simpl. lia.
Qed.

Lemma crawl_site_log (name : string) (cfg : SiteCfg) (max_items : Z) (w : W) :
  orderly name (delay cfg) (trace (snd (crawl_site name cfg max_items w)))
  /\ (length (fetched (trace (snd (crawl_site name cfg max_items w))))
      <= length (build_pages cfg) * Z.to_nat (max_pages cfg))%nat
  /\ (extractions (trace (snd (crawl_site name cfg max_items w)))
      <= length (fetched (trace (snd (crawl_site name cfg max_items w)))))%nat.
Proof.
  unfold crawl_site.
  destruct (crawl_pages_log name cfg max_items (build_pages cfg)
              (mkCrawlState [] ∅ w [])) as (new & Ht & H).
  simpl in Ht. now rewrite Ht.
Qed.

Lemma take_elem_of {A} (n : nat) (l : list A) (x : A) : x ∈ take n l -> x ∈ l.
Proof. intros H. rewrite <- (take_drop n l). set_solver. Qed.

Lemma crawl_site_results_sourced (name : string) (cfg : SiteCfg) (max_items : Z)
    (w : W) :
  Forall (fun j => source j = name /\ titled j)
    (results (snd (crawl_site name cfg max_items w))).
Proof.
  destruct (crawl_site_inv name cfg max_items w) as (_ & _ & Hres).
  destruct (crawl_site_log name cfg max_items w) as ((Hex & _) & _).
  rewrite Forall_forall in *. intros j Hj. apply Hex.
  rewrite Hres in Hj. apply take_elem_of, first_wins_elem in Hj
    as (l1 & l2 & -> & _). set_solver.
Qed.

Lemma crawl_site_results_length (name : string) (cfg : SiteCfg) (max_items : Z)
    (w : W) :
  (length (results (snd (crawl_site name cfg max_items w))) <= Z.to_nat max_items)%nat.
Proof.
  destruct (crawl_site_inv name cfg max_items w) as (_ & _ & ->).
  rewrite length_take. lia.
Qed.

(** X17.  The crawl of a site makes at most as many requests as it has
    start pages times [max_pages]; it extracts postings at most once per
    request and pauses at most once per extraction, each time for the
    configured delay; and every posting it returns carries the site's name
    and a whitespace-normalized title that is not empty. *)
Theorem crawl_site_budget_and_attribution (name : string) (cfg : SiteCfg)
    (max_items : Z) (w : W) :
  let st := snd (crawl_site name cfg max_items w) in
  (length (fetched (trace st))
   <= length (build_pages cfg) * Z.to_nat (max_pages cfg))%nat
  /\ (extractions (trace st) <= length (fetched (trace st)))%nat
  /\ (sleeps (trace st) <= extractions (trace st))%nat
  /\ (forall d, EvSleep d ∈ trace st -> d = delay cfg)
  /\ Forall (fun j => source j = name /\ titled j) (results st).
Proof.
  intros st. unfold st.
  destruct (crawl_site_log name cfg max_items w) as ((_ & Hs & Hd) & Hf & He).
  split; [exact Hf|]. split; [exact He|]. split; [exact Hs|].
  split; [|apply crawl_site_results_sourced].
  intros d Hin. rewrite Forall_forall in Hd. exact (Hd _ Hin).
Qed.

(** What "crawl all" collects. *)
Lemma crawl_all_collects (sites : list (string * SiteCfg)) (max_per_site : Z)
    (all_jobs : list Job) (w : W) :
  exists new,
    fst (crawl_all sites max_per_site all_jobs w) = all_jobs ++ new
    /\ (length new <= length sites * Z.to_nat max_per_site)%nat
    /\ Forall (fun j => source j ∈ map fst sites /\ titled j) new.
Proof.
  revert all_jobs w. induction sites as [|[name cfg] sites IH]; intros all_jobs w;
    cbn [crawl_all].
  - exists []. rewrite app_nil_r. split; [reflexivity|]. split; [simpl; lia | constructor].
  - pose proof (crawl_site_results_length name cfg max_per_site w) as Hlen.
    pose proof (crawl_site_results_sourced name cfg max_per_site w) as Hsrc.
    destruct (crawl_site name cfg max_per_site w) as [o st]. simpl in Hlen, Hsrc.
    assert (forall jobs w', exists new,
              fst (crawl_all sites max_per_site jobs w') = jobs ++ new
              /\ (length new <= length sites * Z.to_nat max_per_site)%nat
              /\ Forall (fun j => source j ∈ map fst ((name, cfg) :: sites)
                                  /\ titled j) new) as IH'.
    { intros jobs w'. destruct (IH jobs w') as (new & H1 & H2 & H3).
      exists new. split; [exact H1|]. split; [exact H2|].
      eapply Forall_impl; [exact H3|]. intros j [? ?]. split; [set_solver | assumption]. }
    destruct o.
    + destruct (IH' (all_jobs ++ results st) (world st)) as (new & H1 & H2 & H3).
      exists (results st ++ new). rewrite H1, <- app_assoc.
      split; [reflexivity|]. split; [rewrite length_app; simpl; lia|].
      apply Forall_app. split; [|exact H3].
      eapply Forall_impl; [exact Hsrc|]. intros j [-> ?]. split; [set_solver | assumption].
    + destruct (IH' all_jobs (world st)) as (new & H1 & H2 & H3).
      exists new. split; [exact H1|]. split; [simpl; lia | exact H3].
    + destruct (IH' all_jobs (world st)) as (new & H1 & H2 & H3).
      exists new. split; [exact H1|]. split; [simpl; lia | exact H3].
Qed.

(** X18.  "Crawl all" only appends to the list of postings; it adds at
    most the cap per site, each added posting carrying the name of one of
    the sites and a title; and a site whose crawl raises adds nothing, not
    even what it had collected before the error. *)
Theorem crawl_all_appends (sites : list (string * SiteCfg)) (max_per_site : Z)
    (all_jobs : list Job) (w : W) :
  (exists new,
     fst (crawl_all sites max_per_site all_jobs w) = all_jobs ++ new
     /\ (length new <= length sites * Z.to_nat max_per_site)%nat
     /\ Forall (fun j => source j ∈ map fst sites /\ titled j) new)
  /\ (forall name cfg e,
        fst (crawl_site name cfg max_per_site w) = Raised e ->
        crawl_all ((name, cfg) :: sites) max_per_site all_jobs w
        = crawl_all sites max_per_site all_jobs
            (world (snd (crawl_site name cfg max_per_site w)))).
Proof.
  split; [apply crawl_all_collects|].
  intros name cfg e He. cbn [crawl_all].
  destruct (crawl_site name cfg max_per_site w) as [o st]. simpl in *. now subst o.
Qed.

(** X19.  What [main] saves comes from the crawl: every posting carries
    the name of one of the sites and a title, and there are at most as
    many postings as sites times the cap per site. *)
Theorem main_jobs_from_sites (args : Args) (sites : list (string * SiteCfg))
    (cutoff : string) (w : W) :
  Forall (fun j => source j ∈ map fst sites /\ titled j)
    (main_jobs args sites cutoff w)
  /\ (length (main_jobs args sites cutoff w)
      <= length sites * Z.to_nat (args_max_per_site args))%nat.
Proof.
  unfold main_jobs. destruct (decide_filters args) as [keywords locations].
  destruct (crawl_all_collects sites (args_max_per_site args) [] w)
    as (new & Hall & Hlen & Hsrc).
  destruct (crawl_all sites (args_max_per_site args) [] w) as [all_jobs w'].
  simpl in Hall. subst all_jobs. unfold pipeline.
  set (d := dedupe new).
  assert (filter_jobs (date_filter (args_days args) cutoff d) keywords locations
          `sublist_of` d) as Hsub.
  { etransitivity; [apply filter_jobs_sublist | apply date_filter_sublist]. }
  split.
  - rewrite Forall_forall in *. intros j Hj. apply Hsrc.
    rewrite (sort_jobs_perm _) in Hj.
    apply (elem_of_sublist _ _ _ Hj) in Hsub.
    apply dedupe_elem, last_with_key_Some in Hsub as [_ Hin]. exact Hin.
  - rewrite (sort_jobs_perm _). apply sublist_length in Hsub.
    pose proof (dedupe_length new). fold d in H. lia.
Qed.

End CrawlMore.

(* ===================================================================== *)
(** * The crawl and [main] on concrete sites                              *)
(* ===================================================================== *)

Section OnSitesMore.
Import Toy Pages MorePages.

(** A site with an empty [pages] list is not crawled, although it names a
    [url]. *)
Lemma crawl_site_idle_witness :
  (cfg_pages cfg_no_pages = Some [] -> build_pages cfg_no_pages = [])
  /\ crawl_site (L := example_libs) (Wd := example_world) "site" cfg_no_pages 120 []
     = (Finished, mkCrawlState (Wd := example_world) [] ∅ [] []).
Proof.
  apply (crawl_site_idle (L := example_libs) (Wd := example_world)
           "site" cfg_no_pages 120 []).
  left. reflexivity.
Defined.

(** The page with the empty body. *)
Lemma empty_body_ends_walk_witness :
  walk (L := example_libs) (Wd := empty_world) 1 "site" cfg_empty 120 None
    (Some "https://jobs.example/empty") 0 ∅
    (mkCrawlState (Wd := empty_world) [] ∅ [] [])
  = (Finished,
     log (EvFetch "https://jobs.example/empty")
       (set_world (Wd := empty_world) ["https://jobs.example/empty"]
          (mkCrawlState (Wd := empty_world) [] ∅ [] []))).
Proof.
  apply (empty_body_ends_walk (L := example_libs) (Wd := empty_world)
           "site" cfg_empty 120 None 0 (Some "https://jobs.example/empty") 0 ∅
           (mkCrawlState (Wd := empty_world) [] ∅ [] [])
           (mkResponse 200 "") ["https://jobs.example/empty"]);
    [reflexivity | apply not_elem_of_empty | reflexivity | reflexivity].
Defined.

(** Two sites, the first of which raises on its first page: its request is
    made, it contributes nothing, and the second site is crawled as
    usual. *)
Example crawl_all_two_sites :
  fst (crawl_site (L := example_libs) (Wd := example_world) "broken" cfg_broken 120 [])
  = Raised SelectorSyntaxError
  /\ map title (fst (crawl_all (L := example_libs) (Wd := example_world)
                       sites_two 120 [] []))
     = ["Cook"; "Cleaner"; "Picker"]
  /\ snd (crawl_all (L := example_libs) (Wd := example_world) sites_two 120 [] [])
     = ["https://jobs.example/p1"; "https://jobs.example/p1";
        "https://jobs.example/p2"].
Proof. repeat split. Qed.

(** [main] on the two sites, filtering switched off. *)
Example main_two_sites :
  map (fun j => (source j, title j))
    (main_jobs (L := example_libs) (Wd := example_world) args_plain sites_two
       "2024-01-01" [])
  = [("site", "Cook"); ("site", "Cleaner"); ("site", "Picker")].
Proof. reflexivity. Qed.

End OnSitesMore.

(* ===================================================================== *)
(** * The rows of the HTML page                                           *)
(* ===================================================================== *)

Lemma string_app_assoc (a b c : string) : (a +:+ b) +:+ c = a +:+ b +:+ c.
Proof. induction a as [|x a IH]; simpl; [reflexivity | now rewrite IH]. Qed.

Lemma esc_each_app (a b : string) : esc_each (a +:+ b) = esc_each a +:+ esc_each b.
Proof.
  induction a as [|x a IH]; simpl; [reflexivity|].
  now rewrite IH, string_app_assoc.
Qed.

Lemma esc_html_safe (s : string) :
  all_chars (fun c => negb (is_quote_or_angle c)) (esc_html (Some s)) = true.
Proof.
  rewrite esc_html_each. induction s as [|c r IH]; [reflexivity|].
  cbn [esc_each]. now rewrite all_chars_app, all_chars_esc_char, IH.
Qed.

(** X20.  In the row of a posting every text but the url is escaped, so it
    holds no angle bracket and no quote; the url is put into the [href]
    attribute as it is; and the text of [data-text] is escaped twice, so an
    ampersand of the title stands there as [&amp;amp;]. *)
Theorem html_row_texts (j : Job) :
  Forall (fun t => all_chars (fun c => negb (is_quote_or_angle c)) t = true)
    [row_source j; row_location j; row_data_text j; row_title j; row_company j;
     row_posted j; row_snippet j]
  /\ substring_of ("href='" +:+ url j +:+ "'") (html_row j)
  /\ (substring_of "&" (title j) -> substring_of "&amp;amp;" (row_data_text j)).
Proof.
  split; [repeat constructor; apply esc_html_safe|]. split.
  - exists ("<article class='card' data-source='" +:+ row_source j
            +:+ "' data-location='" +:+ row_location j
            +:+ "' data-text='" +:+ row_data_text j +:+ "'>"
            +:+ "<div class='card-head'>" +:+ "<a class='title' ").
    eexists. unfold html_row, row_template.
    rewrite !string_app_assoc. cbn -[String.append row_source row_location
      row_data_text row_title row_company row_posted row_snippet].
    reflexivity.
  - intros (pre & post & Ht). unfold row_data_text, row_title.
    rewrite !esc_html_each, Ht, !esc_each_app.
    rewrite !string_app_assoc.
    exists (esc_each (esc_each pre)). eexists. reflexivity.
Qed.

(* ===================================================================== *)
(** * The selector helpers and the dates of the postings                  *)
(* ===================================================================== *)

Section HelpersMore.
Context {L : Libs}.

(** X21.  [sel_text] and [sel_attr] without a selector return the empty
    text and ask the selector engine nothing.  With a selector they look
    at the first match only: its whitespace-normalized text, or its
    attribute, which is [None] when the element lacks it; without a match
    both return the empty text; and an error of the selector engine is
    passed on. *)
Theorem sel_text_attr_edges (node : Tag) (sel : option string) (attr : string) :
  (truthy sel = false ->
   sel_text node sel = Ok "" /\ sel_attr node sel attr = Ok (Some ""))
  /\ (truthy sel = true ->
      match select node (str_or sel "") with
      | Ok [] => sel_text node sel = Ok "" /\ sel_attr node sel attr = Ok (Some "")
      | Ok (el :: _) =>
          sel_text node sel = Ok (normalize_space (Some (get_text el)))
          /\ sel_attr node sel attr = Ok (get el attr)
      | Raise e => sel_text node sel = Raise e /\ sel_attr node sel attr = Raise e
      end)
  /\ (forall t, sel_text node sel = Ok t -> normalize_space (Some t) = t).
Proof.
  split; [|split].
  - intros Hs. unfold sel_text, sel_attr. now rewrite Hs.
  - intros Hs. unfold sel_text, sel_attr, select_one. rewrite Hs. simpl.
    destruct (select node (str_or sel "")) as [[|el rest]|e]; now split.
  - intros t. apply sel_text_normalized.
Qed.

Lemma card_job_dated (selectors : Selectors) (source_name : string)
    (default_location : option string) (card : Tag) (j : Job) (d : string) :
  card_job selectors source_name default_location card = Ok (Some j) ->
  posted_dt j = Some d ->
  exists p, posted j = Some p /\ p <> "" /\ normalize_space (Some p) = p
            /\ dateparser_parse p = Some d.
Proof.
  unfold card_job. intros H Hd.
  inv_bind H as t Ht. inv_bind H as c Hc. inv_bind H as loc Hloc.
  inv_bind H as url0 Hurl0. inv_bind H as url1 Hurl1. inv_bind H as p Hp.
  inv_bind H as sa Hsa. inv_bind H as sn Hsn.
  destruct (negb (String.eqb t "") && truthy url1); simpl in H; [|discriminate].
  injection H as <-. simpl in *. exists p.
  unfold parse_date in Hd.
  destruct (String.eqb_spec p "") as [-> | Hne]; simpl in Hd; [discriminate|].
  split; [reflexivity|]. split; [exact Hne|].
  split; [exact (sel_text_normalized _ _ _ Hp) | exact Hd].
Qed.

(** X22.  A posting the extractor returns has a date only if it has a
    posted text: that text is whitespace-normalized and not empty, and the
    date is what the date parser reads from it.  A posting without posted
    text, and so every posting of the fallback pass, has no date. *)
Theorem extracted_dates_from_posted_text (html : string) (rules : SiteCfg)
    (source_name : string) (default_location : option string) (jobs : list Job) :
  extract_jobs_from_html html rules source_name default_location = Ok jobs ->
  Forall (fun j => forall d, posted_dt j = Some d ->
            exists p, posted j = Some p /\ p <> ""
                      /\ normalize_space (Some p) = p
                      /\ dateparser_parse p = Some d) jobs.
Proof.
  unfold extract_jobs_from_html. intros H. inv_bind H as out Hout.
  assert (Forall (fun j => forall d, posted_dt j = Some d ->
            exists p, posted j = Some p /\ p <> ""
                      /\ normalize_space (Some p) = p
                      /\ dateparser_parse p = Some d) out) as Hstruct.
  { unfold structured_pass in Hout.
    destruct (truthy (sel_container (selectors rules)));
      [|injection Hout as <-; constructor].
    inv_bind Hout as cards Hcards.
    eapply extract_cards_Forall in Hout as (new & -> & Hnew); [exact Hnew|].
    intros card j Hj d. exact (card_job_dated _ _ _ _ _ d Hj). }
  unfold fallback_pass in H.
  destruct (truthy (sel_link_pattern (selectors rules)));
    [|now injection H as <-].
  inv_bind H as pat Hpat. inv_bind H as anchors Hanchors.
  apply harvest_links_spec in H as (fb & -> & Hfb & _ & _).
  apply Forall_app. split; [exact Hstruct|].
  eapply Forall_impl; [exact Hfb|].
  intros j (a & href & _ & _ & _ & _ & _ & ->) d Hd. discriminate Hd.
Qed.

End HelpersMore.

Section OnDatedPage.
Import Toy Pages MorePages.

(** The dated page: the first card's text is read as a date, the second
    card's is not. *)
Lemma extracted_dates_from_posted_text_witness :
  Forall (fun j => forall d, posted_dt j = Some d ->
            exists p, posted j = Some p /\ p <> ""
                      /\ normalize_space (Some p) = p
                      /\ dateparser_parse (Libs := dated_libs) p = Some d)
    [job_cook_dated; job_picker_soon].
Proof.
  apply (extracted_dates_from_posted_text (L := dated_libs) html_dated
           (rules_of sel_dated) "site" None [job_cook_dated; job_picker_soon]).
  reflexivity.
Defined.

End OnDatedPage.
